(** * voice_reverser: the audio transform-and-encode pipeline

    A shallow embedding of [src/services/AudioProcessor.ts]:
    [reverseAudioBuffer] (decode, then reverse every channel) and
    [audioBufferToWavBlob] (interleave, quantise to 16-bit PCM, write the
    44-byte RIFF/WAVE header and the payload through a [DataView]).

    Modelling conventions.
    - A JavaScript exception is a value of [exn]; code that can throw lives
      in the error monad [result].
    - A [Float32Array] is a list of [number]s, an [ArrayBuffer] a list of
      bytes (integers in [0, 256)).  Index writes are stdpp's list insert,
      which, like a typed array, ignores a write past the end.
    - Integer-valued JavaScript numbers (lengths, counts, byte offsets, the
      sample rate) are [nat] or [Z], their arithmetic being exact in
      binary64 below 2^53; the conversions [ToUint8], [ToUint16],
      [ToUint32] and [ToInt16] of the [DataView] setters have their
      wrap-around written out.
    - A JavaScript number on the sample path is an IEEE 754 binary64 value,
      a [spec_float] of the Standard Library's specification of
      floating-point arithmetic with [prec = 53] and [emax = 1024]; [<] and
      [*] are its comparison and its correctly rounded multiplication.
      The elements of a [Float32Array] are the binary64 numbers that are
      also binary32 numbers ([fits_float32]); a store into a
      [Float32Array] rounds to binary32, which changes nothing here, every
      stored sample having been read from a [Float32Array].
    - The audio context is taken as present; its [decodeAudioData] is a
      parameter of the reverser, [createBuffer], [getChannelData] and
      [copyToChannel] follow the Web Audio API.  An awaited promise that
      rejects is an exception at the [await].
    - The module variable [audioContext] with [getAudioContext], and the
      components of [src/components] ([AudioPlayer], [App], the timer of
      [Recorder]), come after the service: a component is its state
      variables, its handlers as functions on them and what it renders;
      what the browser decides (the answer to a permission request, the
      outcome of a construction, an object URL) is an argument. *)

From Stdlib Require Import ZArith QArith Qabs Lia String Ascii.
From Stdlib Require Import Floats.SpecFloat.
From stdpp Require Import base tactics option list.

Local Open Scope Z_scope.

(** * The program *)

(** ** Exceptions and the error monad *)

Inductive exn : Set :=
  | RangeError
  | TypeError
  | IndexSizeError
  | NotSupportedError
  | EncodingError.

Inductive result (A : Type) : Type :=
  | Ok (a : A)
  | Throw (e : exn).
Arguments Ok {A} a.
Arguments Throw {A} e.

#[global] Instance result_ret : MRet result := fun A a => Ok a.
#[global] Instance result_bind : MBind result := fun A B f c =>
  match c with
  | Ok a => f a
  | Throw e => Throw e
  end.

(** [for (let i = start; i < start + n; i++) body], threading the loop
    state; an exception in the body leaves the loop. *)
Fixpoint for_range {St : Type} (start n : nat)
    (body : nat -> St -> result St) (s : St) : result St :=
  match n with
  | O => Ok s
  | S n' => s' ← body start s; for_range (S start) n' body s'
  end.

(** ** JavaScript numbers: IEEE 754 binary64 *)

Abbreviation number := spec_float.

Definition prec : Z := 53.
Definition emax : Z := 1024.

(** The double nearest to [m * 2^e], which is [m * 2^e] itself when that is
    representable; [of_Z z] is the integer literal [z]. *)
Definition dyadic (m e : Z) : number := binary_normalize prec emax m e false.
Definition of_Z (z : Z) : number := dyadic z 0.

(** The relational operator [a < b] (false when an operand is [NaN]) and
    the multiplicative operator [a * b]. *)
Definition number_lt (a b : number) : bool := SFltb a b.
Definition number_mul (a b : number) : number := SFmul prec emax a b.

Module Math.

(** [Math.min(a, b)] and [Math.max(a, b)]: [NaN] if either argument is;
    -0 counts as smaller than +0. *)
Definition min (a b : number) : number :=
  match SFcompare a b with
  | None => S754_nan
  | Some Lt => a
  | Some Gt => b
  | Some Eq =>
      match a, b with
      | S754_zero sa, S754_zero sb => S754_zero (sa || sb)
      | _, _ => a
      end
  end.

Definition max (a b : number) : number :=
  match SFcompare a b with
  | None => S754_nan
  | Some Lt => b
  | Some Gt => a
  | Some Eq =>
      match a, b with
      | S754_zero sa, S754_zero sb => S754_zero (sa && sb)
      | _, _ => a
      end
  end.

End Math.

(** ** Integer conversions of the [DataView] setters *)

Definition ToUint8 (v : Z) : Z := v mod 2 ^ 8.
Definition ToUint16 (v : Z) : Z := v mod 2 ^ 16.
Definition ToUint32 (v : Z) : Z := v mod 2 ^ 32.

(** [ToInt16]: a number that is not finite, or is a zero, gives 0; a
    finite number is truncated toward zero, reduced modulo 2^16 and read as
    two's complement. *)
Definition truncate (x : number) : Z :=
  match x with
  | S754_finite s m e =>
      cond_Zopp s (if 0 <=? e then Z.pos m * 2 ^ e else Z.pos m / 2 ^ (- e))
  | _ => 0
  end.

Definition ToInt16 (x : number) : Z :=
  let int16bit := truncate x mod 2 ^ 16 in
  if 2 ^ 15 <=? int16bit then int16bit - 2 ^ 16 else int16bit.

(** Little-endian raw bytes of a value, low byte first. *)
Fixpoint le_bytes (n : nat) (v : Z) : list Z :=
  match n with
  | O => []
  | S n' => v mod 256 :: le_bytes n' (v / 256)
  end.

(** ** ArrayBuffer and DataView *)

Abbreviation ArrayBuffer := (list Z).
Abbreviation Float32Array := (list number).

(** [new ArrayBuffer(n)] and [new Float32Array(n)] are zero-filled. *)
Definition new_ArrayBuffer (n : nat) : ArrayBuffer := replicate n 0.
Definition new_Float32Array (n : nat) : Float32Array :=
  replicate n (S754_zero false).

Module DataView.

(** The common part of the setters: a write that would pass the end of
    the view throws [RangeError], otherwise the raw bytes replace the
    bytes at [byteOffset]. *)
Definition SetViewValue (view : ArrayBuffer) (byteOffset : nat)
    (rawBytes : list Z) : result ArrayBuffer :=
  if (byteOffset + List.length rawBytes <=? List.length view)%nat
  then Ok (list_inserts byteOffset rawBytes view)
  else Throw RangeError.

Definition setUint8 (view : ArrayBuffer) (byteOffset : nat) (value : Z) :=
  SetViewValue view byteOffset (le_bytes 1 (ToUint8 value)).

(** The two- and four-byte setters are only ever called with
    [littleEndian = true]. *)
Definition setUint16 (view : ArrayBuffer) (byteOffset : nat) (value : Z) :=
  SetViewValue view byteOffset (le_bytes 2 (ToUint16 value)).

Definition setUint32 (view : ArrayBuffer) (byteOffset : nat) (value : Z) :=
  SetViewValue view byteOffset (le_bytes 4 (ToUint32 value)).

Definition setInt16 (view : ArrayBuffer) (byteOffset : nat) (value : number) :=
  SetViewValue view byteOffset (le_bytes 2 (ToInt16 value mod 2 ^ 16)).

End DataView.

(** ** Typed arrays *)

Module TypedArray.

(** [Float32Array.from(source)]: a fresh array with the same elements. *)
Definition from (source : Float32Array) : Float32Array := source.

(** An element read past the end is [undefined], which a [Float32Array]
    stores as [NaN]. *)
Definition get (arr : Float32Array) (i : nat) : number :=
  default S754_nan (arr !! i).

(** [%TypedArray%.prototype.reverse]: swap the elements at [lower] and
    [len - lower - 1] in place while [lower] has not reached
    [floor(len / 2)]; [n] counts the iterations that remain. *)
Fixpoint reverse_loop (n lower : nat) (arr : Float32Array) : Float32Array :=
  match n with
  | O => arr
  | S n' =>
      let upper := (List.length arr - lower - 1)%nat in
      let lowerValue := get arr lower in
      let upperValue := get arr upper in
      reverse_loop n' (S lower)
        (<[upper := lowerValue]> (<[lower := upperValue]> arr))
  end.

Definition reverse (arr : Float32Array) : Float32Array :=
  let len := List.length arr in
  let middle := (len / 2)%nat in
  reverse_loop middle 0 arr.

End TypedArray.

(** ** AudioBuffer *)

Module AudioBuffer.

(** [numberOfChannels] is the number of channel arrays; in a buffer the
    platform built every channel holds [length] samples.  [sampleRate] is
    a whole number of hertz, as in the spec's data model: the platform's
    attribute is a float, and a buffer with a fractional rate is outside
    this model. *)
Record t : Type := mk {
  sampleRate : Z;
  length : nat;
  channelData : list Float32Array
}.

Definition numberOfChannels (b : t) : nat := List.length (channelData b).

(** [getChannelData(channel)] throws [IndexSizeError] for a channel index
    that is not less than [numberOfChannels]. *)
Definition getChannelData (b : t) (channel : nat) : result Float32Array :=
  match channelData b !! channel with
  | Some c => Ok c
  | None => Throw IndexSizeError
  end.

(** [copyToChannel(source, channelNumber)] with the default
    [bufferOffset = 0]: the first [min(source.length, length)] samples of
    the channel are overwritten. *)
Definition copyToChannel (b : t) (source : Float32Array) (channelNumber : nat)
    : result t :=
  match channelData b !! channelNumber with
  | Some c =>
      let c' := list_inserts 0 (take (List.length c) source) c in
      Ok (mk (sampleRate b) (length b) (<[channelNumber := c']> (channelData b)))
  | None => Throw IndexSizeError
  end.

(** [BaseAudioContext.createBuffer(numberOfChannels, length, sampleRate)]:
    a zero-filled buffer; [NotSupportedError] when an argument is zero or
    negative (the upper limits an implementation sets on the channel count
    and the rate are left out: the arguments come from a buffer the same
    context decoded). *)
Definition createBuffer (numberOfChannels length : nat) (sampleRate : Z)
    : result t :=
  if ((numberOfChannels =? 0)%nat || (length =? 0)%nat || (sampleRate <=? 0))%bool
  then Throw NotSupportedError
  else Ok (mk sampleRate length
             (replicate numberOfChannels (new_Float32Array length))).

(** Every channel holds [length] samples. *)
Definition rectangular (b : t) : Prop :=
  Forall (fun c => List.length c = length b) (channelData b).

(** The invariant of a buffer built by the platform: rectangular, with at
    least one channel and one frame and a positive sample rate. *)
Definition valid (b : t) : Prop :=
  rectangular b /\
  (1 <= numberOfChannels b)%nat /\ (1 <= length b)%nat /\ 0 < sampleRate b.

End AudioBuffer.

Record Blob : Type := mkBlob {
  blob_bytes : list Z;
  blob_type : string
}.

(** ** The decoder/reverser: [reverseAudioBuffer] *)

(** [try { ... } catch (error) { console.error(...); return null; }]: every
    exception becomes the [null] result. *)
Definition try_catch_null {A : Type} (c : result A) : option A :=
  match c with
  | Ok a => Some a
  | Throw _ => None
  end.

(** [Float32Array.from(channelData).reverse()]: the reversal is done on a
    copy, the decoded channel is left as it was. *)
Definition reversedChannelData (channelData : Float32Array) : Float32Array :=
  TypedArray.reverse (TypedArray.from channelData).

Section Reverser.

(** The decode capability of the audio context, [decodeAudioData]; it
    rejects (throws) on input it cannot decode. *)
Variable decodeAudioData : ArrayBuffer -> result AudioBuffer.t.

Definition reverseAudioBuffer (audioBlob : Blob) : option AudioBuffer.t :=
  try_catch_null (
    let arrayBuffer := blob_bytes audioBlob in
    audioBuffer ← decodeAudioData arrayBuffer;
    let numberOfChannels := AudioBuffer.numberOfChannels audioBuffer in
    reversedBuffer ← AudioBuffer.createBuffer
      numberOfChannels
      (AudioBuffer.length audioBuffer)
      (AudioBuffer.sampleRate audioBuffer);
    for_range 0 numberOfChannels (fun i reversedBuffer =>
      channelData ← AudioBuffer.getChannelData audioBuffer i;
      AudioBuffer.copyToChannel reversedBuffer (reversedChannelData channelData) i)
      reversedBuffer).

End Reverser.

(** ** The WAV encoder: [audioBufferToWavBlob] *)

(** [str.charCodeAt(i)]; past the end it is [NaN], which [setUint8] writes
    as 0. *)
Definition charCodeAt (str : string) (i : nat) : Z :=
  match String.get i str with
  | Some c => Z.of_N (N_of_ascii c)
  | None => 0
  end.

Definition writeString (view : ArrayBuffer) (offset : nat) (str : string)
    : result ArrayBuffer :=
  for_range 0 (String.length str) (fun i view =>
    DataView.setUint8 view (offset + i) (charCodeAt str i)) view.

(** [channels[j][i]] on the array of channel arrays: indexing [undefined]
    throws [TypeError]. *)
Definition channel_sample (channels : list Float32Array) (j i : nat)
    : result number :=
  match channels !! j with
  | Some c => Ok (TypedArray.get c i)
  | None => Throw TypeError
  end.

Definition interleave (buffer : AudioBuffer.t) : result Float32Array :=
  let numChannels := AudioBuffer.numberOfChannels buffer in
  let numSamples := AudioBuffer.length buffer in
  let result := new_Float32Array (numSamples * numChannels) in
  channels ← for_range 0 numChannels (fun i channels =>
    c ← AudioBuffer.getChannelData buffer i;
    mret (channels ++ [c])) [];
  let offset := 0%nat in
  filled ← for_range 0 numSamples (fun i =>
    for_range 0 numChannels (fun j '(result, offset) =>
      x ← channel_sample channels j i;
      mret (<[offset := x]> result, S offset))) (result, offset);
  mret (fst filled).

(** The sample conversion inside the loop of [floatTo16BitPCM]:
    [s = Math.max(-1, Math.min(1, input[i]))] and the number handed to
    [setInt16], [s < 0 ? s * 0x8000 : s * 0x7FFF]. *)
Definition clamp (x : number) : number :=
  Math.max (of_Z (-1)) (Math.min (of_Z 1) x).

Definition scale (s : number) : number :=
  if number_lt s (of_Z 0)
  then number_mul s (of_Z 0x8000)
  else number_mul s (of_Z 0x7FFF).

Definition floatTo16BitPCM (output : ArrayBuffer) (offset : nat)
    (input : Float32Array) : result ArrayBuffer :=
  written ← for_range 0 (List.length input) (fun i '(output, offset) =>
    let s := clamp (TypedArray.get input i) in
    output ← DataView.setInt16 output offset (scale s);
    mret (output, (offset + 2)%nat)) (output, offset);
  mret (fst written).

Definition audioBufferToWavBlob (buffer : AudioBuffer.t) : result Blob :=
  let numChannels := Z.of_nat (AudioBuffer.numberOfChannels buffer) in
  let sampleRate := AudioBuffer.sampleRate buffer in
  let format := 1 in
  let bitDepth := 16 in
  interleaved ← interleave buffer;
  let dataLength := Z.of_nat (List.length interleaved) * (bitDepth / 8) in
  let bufferLength := 44 + dataLength in
  let view := new_ArrayBuffer (Z.to_nat bufferLength) in
  view ← writeString view 0 "RIFF";
  view ← DataView.setUint32 view 4 (36 + dataLength);
  view ← writeString view 8 "WAVE";
  view ← writeString view 12 "fmt ";
  view ← DataView.setUint32 view 16 16;
  view ← DataView.setUint16 view 20 format;
  view ← DataView.setUint16 view 22 numChannels;
  view ← DataView.setUint32 view 24 sampleRate;
  view ← DataView.setUint32 view 28 (sampleRate * numChannels * (bitDepth / 8));
  view ← DataView.setUint16 view 32 (numChannels * (bitDepth / 8));
  view ← DataView.setUint16 view 34 bitDepth;
  view ← writeString view 36 "data";
  view ← DataView.setUint32 view 40 dataLength;
  view ← floatTo16BitPCM view 44 interleaved;
  mret (mkBlob view "audio/wav").

(** * The audio context and the components *)

(** ** The audio context: [getAudioContext] *)

Module AudioContext.

(** What the service uses of an [AudioContext]: its decoder
    ([createBuffer] is the same for every context). *)
Record t : Type := mk {
  decodeAudioData : ArrayBuffer -> result AudioBuffer.t
}.

End AudioContext.

(** The module keeps one context in the variable [audioContext], [null]
    at first.  [new_AudioContext] is what evaluating
    [new (window.AudioContext || window.webkitAudioContext)()] gives at
    the time of the call: a context, or the exception thrown when neither
    constructor exists or the constructor fails.  The result is what the
    call returns or throws, and the variable after it. *)
Definition getAudioContext (new_AudioContext : result AudioContext.t)
    (audioContext : option AudioContext.t)
    : result AudioContext.t * option AudioContext.t :=
  match audioContext with
  | Some context => (Ok context, audioContext)
  | None =>
      match new_AudioContext with
      | Ok context => (Ok context, Some context)
      | Throw e => (Throw e, None)
      end
  end.

(** The promise of [reverseAudioBuffer(audioBlob)]: the context is fetched
    before the [try], so that a failure to build it rejects the promise;
    everything after it is inside the [try] and resolves, with the
    reversed buffer or with [null]. *)
Definition reverseAudioBuffer_promise (new_AudioContext : result AudioContext.t)
    (audioContext : option AudioContext.t) (audioBlob : Blob)
    : result (option AudioBuffer.t) * option AudioContext.t :=
  let '(context, audioContext) := getAudioContext new_AudioContext audioContext in
  (context ← context;
   mret (reverseAudioBuffer (AudioContext.decodeAudioData context) audioBlob),
   audioContext).

(** ** The player component: [AudioPlayer] *)

Inductive AudioPlayerView : Type :=
  | NoAudioAvailable (title : string)
  | AudioElement (title : string) (src : string) (loop : bool).

(** [!audioUrl] holds for [null] and for the empty string. *)
Definition AudioPlayer (audioUrl : option string) (title : string)
    (loop : bool) : AudioPlayerView :=
  match audioUrl with
  | None => NoAudioAvailable title
  | Some EmptyString => NoAudioAvailable title
  | Some url => AudioElement title url loop
  end.

(** ** The application component: [App] *)

(** The steps [App] names ([AppStep] is declared in [types.ts], which is
    not among the sources at hand; [App] sets and tests these nine
    members and no other). *)
Inductive AppStep : Set :=
  | IDLE
  | REQUESTING_PERMISSION
  | PERMISSION_DENIED
  | RECORDING_ORIGINAL
  | PROCESSING_ORIGINAL
  | PLAYING_REVERSED_ORIGINAL
  | RECORDING_IMITATION
  | PROCESSING_IMITATION
  | PLAYING_REVERSED_IMITATION.

Inductive Target : Set := original | imitation.

Module App.

(** The five state variables of the component and, beside them, the
    module variable [audioContext] of the service. *)
Record State : Type := mk {
  step : AppStep;
  originalAudioBlob : option Blob;
  reversedOriginalAudioUrl : option string;
  reversedImitationAudioUrl : option string;
  error : option string;
  audioContext : option AudioContext.t
}.

Definition initial : State := mk IDLE None None None None None.

Definition setStep (v : AppStep) (s : State) : State :=
  mk v (originalAudioBlob s) (reversedOriginalAudioUrl s)
    (reversedImitationAudioUrl s) (error s) (audioContext s).
Definition setOriginalAudioBlob (v : option Blob) (s : State) : State :=
  mk (step s) v (reversedOriginalAudioUrl s)
    (reversedImitationAudioUrl s) (error s) (audioContext s).
Definition setReversedOriginalAudioUrl (v : option string) (s : State) : State :=
  mk (step s) (originalAudioBlob s) v
    (reversedImitationAudioUrl s) (error s) (audioContext s).
Definition setReversedImitationAudioUrl (v : option string) (s : State) : State :=
  mk (step s) (originalAudioBlob s) (reversedOriginalAudioUrl s)
    v (error s) (audioContext s).
Definition setError (v : option string) (s : State) : State :=
  mk (step s) (originalAudioBlob s) (reversedOriginalAudioUrl s)
    (reversedImitationAudioUrl s) v (audioContext s).
Definition set_audioContext (v : option AudioContext.t) (s : State) : State :=
  mk (step s) (originalAudioBlob s) (reversedOriginalAudioUrl s)
    (reversedImitationAudioUrl s) (error s) v.

(** The click handlers of the rendered buttons: [handleStart], [resetApp]
    and [() => setStep(AppStep.RECORDING_IMITATION)]. *)
Inductive Handler : Set :=
  | HandleStart
  | ResetApp
  | SetStepRecordingImitation.

(** What [renderContent] returns: the element of the step, with the
    handler of its button or the target of its recorder ([original] for
    [handleOriginalRecordingComplete], [imitation] for
    [handleImitationRecordingComplete]). *)
Inductive Content : Type :=
  | Welcome (onClick : Handler)
  | Message (text : string)
  | AccessDenied (onClick : Handler)
  | RecorderElement (onStop : Target) (prompt : string)
  | Player (player : AudioPlayerView) (onClick : Handler).

Definition renderContent (s : State) : Content :=
  match step s with
  | IDLE => Welcome HandleStart
  | REQUESTING_PERMISSION => Message "Requesting microphone access..."
  | PERMISSION_DENIED => AccessDenied ResetApp
  | RECORDING_ORIGINAL =>
      RecorderElement original
        "Step 1: Record yourself singing for up to 30 seconds."
  | PROCESSING_ORIGINAL => Message "Processing your masterpiece..."
  | PLAYING_REVERSED_ORIGINAL =>
      Player (AudioPlayer (reversedOriginalAudioUrl s)
                "Step 2: Listen to it backward" false)
        SetStepRecordingImitation
  | RECORDING_IMITATION =>
      RecorderElement imitation
        "Step 3: Now, try to imitate the backward sound!"
  | PROCESSING_IMITATION => Message "Reversing your imitation..."
  | PLAYING_REVERSED_IMITATION =>
      Player (AudioPlayer (reversedImitationAudioUrl s)
                "The Big Reveal! Does it sound like your original?" true)
        ResetApp
  end.

(** [{error && <p>{error}</p>}]: the message shown above the content. *)
Definition errorBanner (s : State) : option string :=
  match error s with
  | None => None
  | Some EmptyString => None
  | Some message => Some message
  end.

Section Handlers.

(** The environment: what constructing an audio context gives, and the
    URL that [URL.createObjectURL] makes for a blob. *)
Variable new_AudioContext : result AudioContext.t.
Variable createObjectURL : Blob -> string.

(** An async handler is followed to its end: while it awaits, the step is
    [REQUESTING_PERMISSION] or [PROCESSING_...], for which nothing with a
    handler is rendered.  A promise that rejects ends the handler where it
    is, the state staying as the updates before have left it. *)
Definition processAndReverseAudio (blob : Blob) (target : Target)
    (s : State) : State :=
  let s :=
    match target with
    | original => setStep PROCESSING_ORIGINAL s
    | imitation => setStep PROCESSING_IMITATION s
    end in
  let '(reversedBuffer, context) :=
    reverseAudioBuffer_promise new_AudioContext (audioContext s) blob in
  let s := set_audioContext context s in
  match reversedBuffer with
  | Throw _ => s
  | Ok (Some reversedBuffer) =>
      match audioBufferToWavBlob reversedBuffer with
      | Throw _ => s
      | Ok wavBlob =>
          let url := createObjectURL wavBlob in
          match target with
          | original =>
              setStep PLAYING_REVERSED_ORIGINAL
                (setReversedOriginalAudioUrl (Some url) s)
          | imitation =>
              setStep PLAYING_REVERSED_IMITATION
                (setReversedImitationAudioUrl (Some url) s)
          end
      end
  | Ok None =>
      setStep IDLE
        (setError (Some "Failed to process audio. Please try again."%string) s)
  end.

Definition handleOriginalRecordingComplete (blob : Blob) (s : State) : State :=
  processAndReverseAudio blob original (setOriginalAudioBlob (Some blob) s).

Definition handleImitationRecordingComplete (blob : Blob) (s : State) : State :=
  processAndReverseAudio blob imitation s.

(** [granted]: whether the promise of [getUserMedia] resolves. *)
Definition handleStart (granted : bool) (s : State) : State :=
  let s := setStep REQUESTING_PERMISSION s in
  if granted then setStep RECORDING_ORIGINAL s
  else setStep PERMISSION_DENIED s.

Definition resetApp (s : State) : State :=
  setError None
    (setReversedImitationAudioUrl None
       (setReversedOriginalAudioUrl None
          (setOriginalAudioBlob None (setStep IDLE s)))).

Definition run (h : Handler) (granted : bool) (s : State) : State :=
  match h with
  | HandleStart => handleStart granted s
  | ResetApp => resetApp s
  | SetStepRecordingImitation => setStep RECORDING_IMITATION s
  end.

(** What can happen to the rendered component: a click on its button
    (with the answer to the permission request, should the handler ask),
    or its recorder handing over a recording. *)
Inductive Event : Type :=
  | Click (granted : bool)
  | RecorderStop (blob : Blob).

Definition react (ev : Event) (s : State) : option State :=
  match renderContent s, ev with
  | Welcome h, Click granted
  | AccessDenied h, Click granted
  | Player _ h, Click granted => Some (run h granted s)
  | RecorderElement original _, RecorderStop blob =>
      Some (handleOriginalRecordingComplete blob s)
  | RecorderElement imitation _, RecorderStop blob =>
      Some (handleImitationRecordingComplete blob s)
  | _, _ => None
  end.

(** The states the component can be in: the initial one and those an
    event leads to. *)
Inductive reachable : State -> Prop :=
  | reachable_initial : reachable initial
  | reachable_react (s s' : State) (ev : Event) :
      reachable s -> react ev s = Some s' -> reachable s'.

(** Events one after the other; one the rendered content has no control
    for is ignored. *)
Fixpoint react_all (evs : list Event) (s : State) : State :=
  match evs with
  | [] => s
  | ev :: evs' => react_all evs' (default s (react ev s))
  end.

End Handlers.

End App.

(** ** The recorder component: [Recorder], its timer *)

Inductive RecorderStatus : Set := idle | recording | paused | stopped.

Definition RecorderStatus_eqb (a b : RecorderStatus) : bool :=
  match a, b with
  | idle, idle | recording, recording | paused, paused | stopped, stopped =>
      true
  | _, _ => false
  end.

(** The [state] attribute of a [MediaRecorder]. *)
Inductive RecordingState : Set := rs_inactive | rs_recording | rs_paused.

Module Recorder.

Definition MAX_DURATION : nat := 30.

(** What the timer and the stop handler read and write: the two state
    variables, the recorder held by [mediaRecorderRef] (with its [state]),
    the interval id held by [timerIntervalRef], and the intervals of the
    window that are live. *)
Record Store : Type := mk {
  status : RecorderStatus;
  recordingTime : nat;
  mediaRecorder : option RecordingState;
  timerInterval : option nat;
  liveIntervals : list nat
}.

Definition setStatus (v : RecorderStatus) (s : Store) : Store :=
  mk v (recordingTime s) (mediaRecorder s) (timerInterval s) (liveIntervals s).
Definition setRecordingTime (v : nat) (s : Store) : Store :=
  mk (status s) v (mediaRecorder s) (timerInterval s) (liveIntervals s).

(** [stopTimer]: [clearInterval] on the interval the ref holds (the ids
    that [setInterval] gives are positive, hence truthy). *)
Definition stopTimer (s : Store) : Store :=
  match timerInterval s with
  | Some id =>
      mk (status s) (recordingTime s) (mediaRecorder s) None
        (filter (fun i => i <> id) (liveIntervals s))
  | None => s
  end.

(** [stopRecording] as made by a render whose status was [captured]: the
    test reads the status the closure has captured, not the current one.
    [stop()] leaves the recorder inactive. *)
Definition stopRecording (captured : RecorderStatus) (s : Store) : Store :=
  match mediaRecorder s with
  | Some _ =>
      if negb (RecorderStatus_eqb captured idle)
         && negb (RecorderStatus_eqb captured stopped)
      then
        stopTimer
          (setStatus stopped
             (mk (status s) (recordingTime s) (Some rs_inactive)
                (timerInterval s) (liveIntervals s)))
      else s
  | None => s
  end.

(** The callback that [startTimer] hands to [setInterval], for the
    [stopRecording] that [startTimer] has captured. *)
Definition timer_callback (stopRecording : Store -> Store) (s : Store)
    : Store :=
  let prevTime := recordingTime s in
  if (MAX_DURATION - 1 <=? prevTime)%nat
  then setRecordingTime MAX_DURATION (stopRecording s)
  else setRecordingTime (prevTime + 1)%nat s.

(** [useCallback(callback, deps)]: the callback of the first render, kept
    for as long as [deps] stay the same.  A callback is stood for by what
    its closure has captured. *)
Definition useCallback {F D : Type} (same : D -> D -> bool)
    (memo : option (F * D)) (callback : F) (deps : D) : F * D :=
  match memo with
  | Some (f, d) => if same d deps then (f, d) else (callback, deps)
  | None => (callback, deps)
  end.

(** The memoised callbacks of a render, each with its dependencies.
    [stopRecording] captures the status of its render and depends on
    [status] ([stopTimer], its other dependency, never changes);
    [startTimer] captures the [stopRecording] of its render and has no
    dependencies. *)
Record Hooks : Type := mkHooks {
  startTimer : RecorderStatus * unit;
  stopRecording_hook : RecorderStatus * RecorderStatus
}.

Definition render (previous : option Hooks) (status : RecorderStatus)
    : Hooks :=
  let stopRecording :=
    useCallback RecorderStatus_eqb (stopRecording_hook <$> previous)
      status status in
  let startTimer :=
    useCallback (fun _ _ => true) (startTimer <$> previous)
      (fst stopRecording) tt in
  mkHooks startTimer stopRecording.

(** The first render, with the initial status ['idle'], and the renders
    after it, one for each status of the list. *)
Definition mount : Hooks := render None idle.

Fixpoint rerender (statuses : list RecorderStatus) (hooks : Hooks) : Hooks :=
  match statuses with
  | [] => hooks
  | status :: statuses' => rerender statuses' (render (Some hooks) status)
  end.

(** A tick of the timer started by the [startTimer] of a render. *)
Definition tick (hooks : Hooks) : Store -> Store :=
  timer_callback (stopRecording (fst (startTimer hooks))).

End Recorder.

(** * Notions the properties are stated with *)

(** The integer [floatTo16BitPCM] stores for the sample [x]. *)
Definition pcm16 (x : number) : Z := ToInt16 (scale (clamp x)).

(** The real number a finite [number] stands for (0 for the others). *)
Definition number_value (x : number) : Q :=
  match x with
  | S754_finite s m e =>
      if 0 <=? e then inject_Z (cond_Zopp s (Z.pos m) * 2 ^ e)
      else Qmake (cond_Zopp s (Z.pos m)) (2 ^ Z.to_pos (- e))
  | _ => 0
  end.

Definition is_finite (x : number) : bool :=
  match x with
  | S754_zero _ | S754_finite _ _ _ => true
  | _ => false
  end.

(** What every element of a [Float32Array] satisfies: if finite and not
    zero, it is a normal binary64 number (53-bit significand) whose
    significand ends in 29 zero bits, so that at most 24 bits are
    significant, and whose magnitude lies in binary32's range, from 2^-149
    to below 2^128. *)
Definition fits_float32 (x : number) : bool :=
  match x with
  | S754_finite _ m e =>
      (Z.pos (digits2_pos m) =? prec) && (Z.pos m mod 2 ^ 29 =? 0)
      && (-201 <=? e) && (e <=? 75)
  | _ => true
  end.

(** The character codes of a string. *)
Definition string_bytes (str : string) : list Z :=
  (fun c => Z.of_N (N_of_ascii c)) <$> list_ascii_of_string str.

(** The 44 header bytes for given field values, and the payload of a
    sample array: two little-endian bytes per sample, in array order. *)
Definition wav_header (dataLength numChannels sampleRate : Z) : list Z :=
  string_bytes "RIFF" ++ le_bytes 4 (ToUint32 (36 + dataLength)) ++
  string_bytes "WAVE" ++
  string_bytes "fmt " ++ le_bytes 4 (ToUint32 16) ++
  le_bytes 2 (ToUint16 1) ++ le_bytes 2 (ToUint16 numChannels) ++
  le_bytes 4 (ToUint32 sampleRate) ++
  le_bytes 4 (ToUint32 (sampleRate * numChannels * 2)) ++
  le_bytes 2 (ToUint16 (numChannels * 2)) ++ le_bytes 2 (ToUint16 16) ++
  string_bytes "data" ++ le_bytes 4 (ToUint32 dataLength).

Definition pcm_payload (input : Float32Array) : list Z :=
  input ≫= (fun x => le_bytes 2 (pcm16 x mod 2 ^ 16)).

(** Reading a file back: the little-endian value of a byte sequence, [n]
    bytes at an offset, an unsigned 16- or 32-bit field, a signed 16-bit
    field. *)
Fixpoint le_combine (bs : list Z) : Z :=
  match bs with
  | [] => 0
  | b :: bs' => b + 256 * le_combine bs'
  end.

Definition bytes_at (bytes : list Z) (offset n : nat) : list Z :=
  take n (drop offset bytes).

Definition u16_at (bytes : list Z) (offset : nat) : Z :=
  le_combine (bytes_at bytes offset 2).

Definition u32_at (bytes : list Z) (offset : nat) : Z :=
  le_combine (bytes_at bytes offset 4).

Definition i16_at (bytes : list Z) (offset : nat) : Z :=
  let u := u16_at bytes offset in
  if 2 ^ 15 <=? u then u - 2 ^ 16 else u.

(** The flat array of [interleave] after [offset] writes: its length is
    [len * noc] and position [k < offset] holds sample [k / noc] of channel
    [k mod noc]. *)
Definition filled_upto (chans : list Float32Array) (len noc offset : nat)
    (flat : Float32Array) : Prop :=
  List.length flat = (len * noc)%nat /\
  forall k : nat, (k < offset)%nat ->
    exists c : Float32Array,
      chans !! (k mod noc)%nat = Some c /\
      flat !! k = Some (TypedArray.get c (k / noc)%nat).

(** ** The spec's wording, where it is compared with the code *)

(** The spec's quantiser, on the real value of a sample: clamp to [-1, 1],
    scale by 32768 below zero and by 32767 otherwise, and round to a
    nearest integer (whichever way a tie is broken). *)
Definition spec_clamp (q : Q) : Q :=
  if Qlt_le_dec q (-1) then -1 else if Qlt_le_dec 1 q then 1 else q.

Definition spec_scale (s : Q) : Q :=
  if Qlt_le_dec s 0 then s * inject_Z 32768 else s * inject_Z 32767.

Definition nearest_integer (y : Q) (v : Z) : Prop :=
  (Qabs (y - inject_Z v) <= 1 # 2)%Q.

Definition spec_rounds_to_nearest (x : number) : Prop :=
  nearest_integer (spec_scale (spec_clamp (number_value x))) (pcm16 x).

(** The payload the spec gives for its worked example: the 16-bit values
    32767, 16384, -32768, 0, little-endian. *)
Definition spec_example_payload : list Z :=
  [32767; 16384; -32768; 0] ≫= (fun v => le_bytes 2 (v mod 2 ^ 16)).

(** ** Inputs to run the program on *)

(** The buffer of the spec's worked example: 44100 Hz, two channels, two
    frames, channel 0 = [1.0, -1.0], channel 1 = [0.5, 0.0]. *)
Definition example_buffer : AudioBuffer.t :=
  AudioBuffer.mk 44100 2
    [ [of_Z 1; of_Z (-1)]; [dyadic 1 (-1); of_Z 0] ].

(** A buffer with two channels and no frames, and one with no channels. *)
Definition empty_buffer : AudioBuffer.t := AudioBuffer.mk 8000 0 [ []; [] ].
Definition channelless_buffer : AudioBuffer.t := AudioBuffer.mk 48000 1000 [].

(** A decoder to run the reverser on: it rejects the empty input and
    decodes anything else to the buffer of the worked example. *)
Definition sample_decoder (bytes : ArrayBuffer) : result AudioBuffer.t :=
  match bytes with
  | [] => Throw EncodingError
  | _ => Ok example_buffer
  end.

(** ** Notions for the further properties *)

(** The samples of frame [i], one per channel in channel order (a channel
    that has no sample [i] gives [NaN]), and the frames [0 .. len - 1] one
    after the other. *)
Definition frame (chans : list Float32Array) (i : nat) : Float32Array :=
  (fun c => TypedArray.get c i) <$> chans.

Definition frames (chans : list Float32Array) (len : nat) : Float32Array :=
  seq 0 len ≫= frame chans.

(** Successive calls of [getAudioContext], call [k] with the outcome
    [news !! k] that a construction would have at that time: what each
    call returns. *)
Fixpoint getAudioContext_calls (news : list (result AudioContext.t))
    (audioContext : option AudioContext.t) : list (result AudioContext.t) :=
  match news with
  | [] => []
  | new_AudioContext :: news' =>
      let '(r, audioContext') := getAudioContext new_AudioContext audioContext in
      r :: getAudioContext_calls news' audioContext'
  end.

(** In a playing step the URL of the player is set and not empty. *)
Definition playing_has_url (s : App.State) : Prop :=
  (App.step s = PLAYING_REVERSED_ORIGINAL ->
     exists url,
       App.reversedOriginalAudioUrl s = Some url /\ url <> EmptyString) /\
  (App.step s = PLAYING_REVERSED_IMITATION ->
     exists url,
       App.reversedImitationAudioUrl s = Some url /\ url <> EmptyString).

(** From the playing of the reversed original on until the reset, the
    recording of the original and the URL of its reversal are kept. *)
Definition original_kept (s : App.State) : Prop :=
  App.step s = PLAYING_REVERSED_ORIGINAL \/
  App.step s = RECORDING_IMITATION \/
  App.step s = PROCESSING_IMITATION \/
  App.step s = PLAYING_REVERSED_IMITATION ->
  (exists blob, App.originalAudioBlob s = Some blob) /\
  (exists url, App.reversedOriginalAudioUrl s = Some url).

(** An environment to run the components in: a context whose decoder is
    [sample_decoder], and object URLs that all read the same. *)
Definition sample_context : AudioContext.t := AudioContext.mk sample_decoder.

Definition sample_createObjectURL (_ : Blob) : string := "blob:recording".

(** * Properties *)

(** ** Loops *)

Section Loops.
Local Open Scope nat_scope.
Context {St : Type}.

(** The loop rule: an invariant that holds on entry and that every
    iteration re-establishes without throwing holds on exit, and the loop
    does not throw. *)
Lemma for_range_inv (I : nat -> St -> Prop) (body : nat -> St -> result St) :
  forall n start s,
    I start s ->
    (forall k t, start <= k < start + n -> I k t ->
       exists t', body k t = Ok t' /\ I (S k) t') ->
    exists s', for_range start n body s = Ok s' /\ I (start + n) s'.
Proof.
  induction n as [|n IH]; intros start s Hs Hbody; simpl.
  - exists s. by rewrite Nat.add_0_r.
  - destruct (Hbody start s) as (t & Ht & HI); [lia | done |].
    rewrite Ht. simpl.
    destruct (IH (S start) t HI) as (s' & Hs' & HI').
    { intros k u Hk. apply Hbody. lia. }
    exists s'. split; [done |].
    by replace (start + S n) with (S start + n) by lia.
Qed.

End Loops.

(** ** In-place reversal of a typed array *)

Section Reverse.
Local Open Scope nat_scope.

Lemma get_lookup (arr : Float32Array) i x :
  arr !! i = Some x -> TypedArray.get arr i = x.
Proof. unfold TypedArray.get. by intros ->. Qed.

Lemma length_reverse_loop n : forall lower (arr : Float32Array),
  length (TypedArray.reverse_loop n lower arr) = length arr.
Proof.
  induction n as [|n IH]; intros lower arr; simpl; [done |].
  by rewrite IH, !length_insert.
Qed.

(** After [n] swaps starting at [lower], the [n] positions from [lower]
    and the [n] positions ending before [len - lower] hold the mirrored
    elements; every other position is untouched. *)
Lemma reverse_loop_lookup n : forall lower (arr : Float32Array) i,
  2 * (lower + n) <= length arr ->
  TypedArray.reverse_loop n lower arr !! i =
    if decide (lower <= i < lower + n \/
               length arr - lower - n <= i < length arr - lower)
    then arr !! (length arr - 1 - i)
    else arr !! i.
Proof.
  induction n as [|n IH]; intros lower arr i Hlen; simpl.
  - case_decide; [lia | done].
  - set (upper := length arr - lower - 1).
    destruct (lookup_lt_is_Some_2 arr lower) as [lv Hlv]; [lia |].
    destruct (lookup_lt_is_Some_2 arr upper) as [uv Huv]; [unfold upper; lia |].
    rewrite (get_lookup _ _ _ Hlv), (get_lookup _ _ _ Huv).
    rewrite IH by (rewrite !length_insert; lia).
    rewrite !length_insert.
    rewrite !list_lookup_insert, !length_insert.
    unfold upper in *.
    repeat case_decide; try lia; try done;
      first [ rewrite <- Hlv | rewrite <- Huv | idtac ]; f_equal; lia.
Qed.

(** The swap loop computes the reversed list. *)
Lemma TypedArray_reverse_spec (arr : Float32Array) :
  TypedArray.reverse arr = reverse arr.
Proof.
  apply list_eq. intros i. unfold TypedArray.reverse.
  destruct (decide (i < length arr)) as [Hi | Hi].
  - pose proof (Nat.div_mod_eq (length arr) 2) as Hdm.
    pose proof (Nat.mod_upper_bound (length arr) 2) as Hmod.
    rewrite reverse_loop_lookup, reverse_lookup by lia.
    case_decide as Hc; f_equal; lia.
  - rewrite !lookup_ge_None_2; [done | |].
    + rewrite length_reverse. lia.
    + rewrite length_reverse_loop. lia.
Qed.

Lemma reversedChannelData_spec (c : Float32Array) :
  reversedChannelData c = reverse c.
Proof.
  unfold reversedChannelData, TypedArray.from. apply TypedArray_reverse_spec.
Qed.

End Reverse.

(** ** The decoder/reverser *)

Section ReverserProps.
Local Open Scope nat_scope.
Variable decodeAudioData : ArrayBuffer -> result AudioBuffer.t.

Lemma createBuffer_valid noc len sr :
  1 <= noc -> 1 <= len -> (0 < sr)%Z ->
  AudioBuffer.createBuffer noc len sr =
    Ok (AudioBuffer.mk sr len (replicate noc (new_Float32Array len))).
Proof.
  intros Hn Hl Hs. unfold AudioBuffer.createBuffer.
  destruct (Nat.eqb_spec noc 0); [lia |].
  destruct (Nat.eqb_spec len 0); [lia |].
  destruct (Z.leb_spec sr 0); [lia | done].
Qed.

(** Copying a full-length source over a channel replaces the channel. *)
Lemma copy_full_channel (source c : Float32Array) :
  length source = length c ->
  list_inserts 0 (take (length c) source) c = source.
Proof.
  intros Hlen. rewrite take_ge by lia.
  rewrite <- (app_nil_r c), list_inserts_0_r by done.
  apply app_nil_r.
Qed.

Lemma rectangular_lookup (buf : AudioBuffer.t) (k : nat) (c : Float32Array) :
  AudioBuffer.rectangular buf ->
  AudioBuffer.channelData buf !! k = Some c ->
  length c = AudioBuffer.length buf.
Proof.
  unfold AudioBuffer.rectangular. rewrite Forall_lookup.
  intros Hrect Hc. by apply (Hrect k).
Qed.

(** The channel loop of [reverseAudioBuffer], run on the zero-filled
    buffer, leaves the reversed channels in the same order. *)
Lemma reverse_channels_loop (buf : AudioBuffer.t) :
  AudioBuffer.rectangular buf ->
  let noc := AudioBuffer.numberOfChannels buf in
  let len := AudioBuffer.length buf in
  let sr := AudioBuffer.sampleRate buf in
  for_range 0 noc (fun i reversedBuffer =>
      channelData ← AudioBuffer.getChannelData buf i;
      AudioBuffer.copyToChannel reversedBuffer (reversedChannelData channelData) i)
    (AudioBuffer.mk sr len (replicate noc (new_Float32Array len)))
  = Ok (AudioBuffer.mk sr len (reverse <$> AudioBuffer.channelData buf)).
Proof.
  intros Hrect noc len sr.
  set (chans := AudioBuffer.channelData buf).
  set (zeros := new_Float32Array len).
  assert (Hnoc : noc = length chans) by done.
  match goal with |- for_range 0 _ ?body _ = _ =>
    destruct (for_range_inv
      (fun (k : nat) (rb : AudioBuffer.t) =>
         rb = AudioBuffer.mk sr len
                ((reverse <$> take k chans) ++ replicate (noc - k) zeros))
      body noc 0 (AudioBuffer.mk sr len (replicate noc zeros)))
      as (out & Hout & HI)
  end.
  - simpl. by rewrite Nat.sub_0_r.
  - intros k rb Hk ->.
    destruct (lookup_lt_is_Some_2 chans k) as [c Hc]; [lia |].
    pose proof (rectangular_lookup buf k c Hrect Hc) as Hclen.
    unfold AudioBuffer.getChannelData. fold chans. rewrite Hc. simpl.
    unfold AudioBuffer.copyToChannel. simpl.
    assert (Hk' : length (reverse <$> take k chans) = k)
      by (rewrite length_fmap, length_take; lia).
    rewrite lookup_app_r by lia. rewrite Hk', Nat.sub_diag.
    replace (noc - k) with (S (noc - S k)) by lia. simpl.
    eexists. split; [reflexivity |]. f_equal.
    rewrite reversedChannelData_spec.
    rewrite copy_full_channel.
    2:{ rewrite length_reverse. unfold zeros, new_Float32Array.
        rewrite length_replicate. by fold len. }
    rewrite insert_app_r_alt by lia. rewrite Hk', Nat.sub_diag. simpl.
    by rewrite (take_S_r _ _ _ Hc), fmap_app, <- app_assoc.
  - rewrite Hout. f_equal. simpl in HI. rewrite HI. f_equal.
    rewrite Nat.sub_diag. simpl. rewrite app_nil_r.
    by rewrite take_ge by lia.
Qed.

(** What [reverseAudioBuffer] returns for an input the platform decodes
    to a valid buffer. *)
Lemma reverseAudioBuffer_decoded (audioBlob : Blob) (buf : AudioBuffer.t) :
  decodeAudioData (blob_bytes audioBlob) = Ok buf ->
  AudioBuffer.valid buf ->
  reverseAudioBuffer decodeAudioData audioBlob =
    Some (AudioBuffer.mk (AudioBuffer.sampleRate buf) (AudioBuffer.length buf)
            (reverse <$> AudioBuffer.channelData buf)).
Proof.
  intros Hdec (Hrect & Hn & Hl & Hs). unfold reverseAudioBuffer.
  rewrite Hdec. simpl.
  rewrite createBuffer_valid by done. simpl.
  by rewrite reverse_channels_loop.
Qed.

End ReverserProps.

(** ** Interleaving *)

Section Interleave.
Local Open Scope nat_scope.
Variable buffer : AudioBuffer.t.
Hypothesis Hrect : AudioBuffer.rectangular buffer.

Let chans := AudioBuffer.channelData buffer.
Let noc := AudioBuffer.numberOfChannels buffer.
Let len := AudioBuffer.length buffer.

(** The first loop collects the channel arrays in index order. *)
Lemma interleave_channels :
  for_range 0 noc (fun i channels =>
      c ← AudioBuffer.getChannelData buffer i;
      mret (channels ++ [c])) []
  = Ok chans.
Proof.
  match goal with |- for_range 0 _ ?body _ = _ =>
    destruct (for_range_inv (fun k channels => channels = take k chans)
                body noc 0 []) as (out & Hout & HI)
  end.
  - done.
  - intros k t Hk ->.
    destruct (lookup_lt_is_Some_2 chans k) as [c Hc]; [apply Hk |].
    unfold AudioBuffer.getChannelData. fold chans. rewrite Hc. simpl.
    eexists. split; [reflexivity |]. by rewrite (take_S_r _ _ _ Hc).
  - rewrite Hout, HI. f_equal. by apply take_ge.
Qed.

(** One frame: the inner loop writes the samples of frame [i], one per
    channel, at consecutive offsets. *)
Lemma interleave_inner (i : nat) (flat : Float32Array) :
  i < len ->
  filled_upto chans len noc (i * noc) flat ->
  exists flat',
    for_range 0 noc (fun j '(result, offset) =>
        x ← channel_sample chans j i;
        mret (<[offset := x]> result, S offset)) (flat, i * noc)
    = Ok (flat', S i * noc) /\
    filled_upto chans len noc (S i * noc) flat'.
Proof.
  intros Hi Hfill.
  match goal with |- context [for_range 0 _ ?body _] =>
    destruct (for_range_inv
      (fun j (st : Float32Array * nat) =>
         st.2 = i * noc + j /\ filled_upto chans len noc (i * noc + j) st.1)
      body noc 0 (flat, i * noc)) as ([flat' off'] & Hout & Hoff & HI)
  end.
  - simpl. by rewrite Nat.add_0_r.
  - intros j [r off] Hj [Hoff [Hlen Hprev]]. simpl in *. subst off.
    destruct (lookup_lt_is_Some_2 chans j) as [c Hc]; [apply Hj |].
    unfold channel_sample. rewrite Hc. simpl.
    eexists. split; [reflexivity |]. simpl. split; [lia |].
    split; [by rewrite length_insert |].
    intros k Hk.
    destruct (decide (k = i * noc + j)) as [-> | Hne].
    + exists c.
      replace ((i * noc + j) mod noc) with j
        by (apply (Nat.mod_unique _ _ i); lia).
      replace ((i * noc + j) / noc) with i
        by (apply (Nat.div_unique _ _ _ j); lia).
      split; [done |]. apply list_lookup_insert_eq. nia.
    + rewrite list_lookup_insert_ne by done. apply Hprev. lia.
  - simpl in *. subst off'. exists flat'. rewrite Hout.
    replace (i * noc + noc) with (S i * noc) in * by lia. done.
Qed.

(** All frames: the outer loop fills the whole array. *)
Lemma interleave_outer :
  exists flat,
    for_range 0 len (fun i =>
      for_range 0 noc (fun j '(result, offset) =>
        x ← channel_sample chans j i;
        mret (<[offset := x]> result, S offset)))
      (new_Float32Array (len * noc), 0)
    = Ok (flat, len * noc) /\
    filled_upto chans len noc (len * noc) flat.
Proof.
  match goal with |- context [for_range 0 _ ?body _] =>
    destruct (for_range_inv
      (fun i (st : Float32Array * nat) =>
         st.2 = i * noc /\ filled_upto chans len noc (i * noc) st.1)
      body len 0 (new_Float32Array (len * noc), 0))
      as ([flat off] & Hout & Hoff & HI)
  end.
  - simpl. split; [done |]. split.
    + unfold new_Float32Array. by rewrite length_replicate.
    + intros k Hk. lia.
  - intros i [r off] Hi [Hoff Hfill]. simpl in *. subst off.
    destruct (interleave_inner i r) as (flat' & Hrun & Hfill'); [lia | done |].
    exists (flat', S i * noc). split; [done |]. simpl. done.
  - simpl in *. subst off. exists flat. by rewrite Hout.
Qed.

(** [interleave] returns, and its result is frame-major. *)
Lemma interleave_spec :
  exists flat,
    interleave buffer = Ok flat /\
    length flat = len * noc /\
    forall i j, i < len -> j < noc ->
      exists c x, chans !! j = Some c /\ c !! i = Some x /\
                  flat !! (i * noc + j) = Some x.
Proof.
  destruct interleave_outer as (flat & Hrun & Hlen & Hfill).
  exists flat. unfold interleave. fold noc len chans.
  rewrite interleave_channels. simpl. rewrite Hrun. simpl.
  split; [done |]. split; [done |].
  intros i j Hi Hj.
  destruct (Hfill (i * noc + j)) as (c & Hc & Hflat); [nia |].
  replace ((i * noc + j) mod noc) with j in Hc
    by (apply (Nat.mod_unique _ _ i); lia).
  replace ((i * noc + j) / noc) with i in Hflat
    by (apply (Nat.div_unique _ _ _ j); lia).
  pose proof (rectangular_lookup buffer j c Hrect Hc) as Hclen.
  destruct (lookup_lt_is_Some_2 c i) as [x Hx]; [fold len in Hclen; lia |].
  exists c, x. rewrite Hflat. by rewrite (get_lookup _ _ _ Hx).
Qed.

End Interleave.

(** ** Quantisation to 16-bit PCM *)

(** The product of a sample with 0x8000 or 0x7FFF is computed by [SFmul],
    which rounds to nearest-even.  The lemmas below show that for a sample
    that fits binary32 nothing is rounded: the product has at most 39
    significant bits, the shift that brings it back to 53 bits only drops
    zero bits. *)

Section Digits.

Lemma digits2_pos_size (p : positive) : digits2_pos p = Pos.size p.
Proof. induction p as [p IH | p IH |]; simpl; by rewrite ?IH. Qed.

(** A positive number of [d] binary digits lies in [2^(d-1), 2^d). *)
Lemma digits2_pos_bounds (p : positive) :
  2 ^ (Z.pos (digits2_pos p) - 1) <= Z.pos p < 2 ^ Z.pos (digits2_pos p).
Proof.
  rewrite digits2_pos_size.
  pose proof (Pos.size_gt p) as Hgt. pose proof (Pos.size_le p) as Hle.
  apply Pos2Z.pos_lt_pos in Hgt. apply Pos2Z.pos_le_pos in Hle.
  rewrite Pos2Z.inj_pow in Hgt, Hle.
  split; [| exact Hgt].
  replace (Z.pos (Pos.size p)) with (Z.pos (Pos.size p) - 1 + 1) in Hle at 1 by lia.
  rewrite Z.pow_add_r in Hle by lia. change (2 ^ 1) with 2 in Hle. lia.
Qed.

Lemma digits2_pos_unique (p : positive) (d : Z) :
  2 ^ (d - 1) <= Z.pos p < 2 ^ d -> Z.pos (digits2_pos p) = d.
Proof.
  intros [Hlo Hhi]. pose proof (digits2_pos_bounds p) as [Hlo' Hhi'].
  set (d' := Z.pos (digits2_pos p)) in *.
  destruct (Z.lt_trichotomy d' d) as [Hlt | [Heq | Hgt]]; [| done |].
  - assert (2 ^ d' <= 2 ^ (d - 1)) by (apply Z.pow_le_mono_r; lia). lia.
  - assert (0 <= d).
    { destruct (Z.le_gt_cases 0 d); [done |].
      rewrite (Z.pow_neg_r 2 d) in Hhi by lia. lia. }
    assert (2 ^ d <= 2 ^ (d' - 1)) by (apply Z.pow_le_mono_r; lia). lia.
Qed.

End Digits.

Section Shift.

Lemma shr_1_even (k : Z) :
  0 < k ->
  shr_1 (Build_shr_record (2 * k) false false) = Build_shr_record k false false.
Proof. intros Hk. destruct k as [| p | p]; try lia. reflexivity. Qed.

(** Shifting out [n] zero bits is exact. *)
Lemma iter_shr_1_exact (n : positive) : forall k : Z,
  0 < k ->
  SpecFloat.iter_pos shr_1 n (Build_shr_record (2 ^ Z.pos n * k) false false) =
    Build_shr_record k false false.
Proof.
  induction n as [n IH | n IH |]; intros k Hk; cbn [SpecFloat.iter_pos].
  - rewrite Pos2Z.inj_xI.
    replace (2 ^ (2 * Z.pos n + 1) * k)
      with (2 * (2 ^ Z.pos n * (2 ^ Z.pos n * k))).
    2:{ replace (2 * Z.pos n + 1) with (1 + (Z.pos n + Z.pos n)) by lia.
        rewrite !Z.pow_add_r by lia. change (2 ^ 1) with 2. ring. }
    assert (0 < 2 ^ Z.pos n) by (apply Z.pow_pos_nonneg; lia).
    rewrite shr_1_even by nia. rewrite IH by nia. by apply IH.
  - change (Z.pos n~0) with (2 * Z.pos n).
    replace (2 ^ (2 * Z.pos n) * k) with (2 ^ Z.pos n * (2 ^ Z.pos n * k)).
    2:{ replace (2 * Z.pos n) with (Z.pos n + Z.pos n) by lia.
        rewrite Z.pow_add_r by lia. ring. }
    assert (0 < 2 ^ Z.pos n) by (apply Z.pow_pos_nonneg; lia).
    rewrite IH by nia. by apply IH.
  - change (2 ^ 1) with 2. by apply shr_1_even.
Qed.

(** Rounding a product whose low bits are zero only drops those bits. *)
Lemma binary_round_aux_exact (sx : bool) (M : positive) (n E : Z) :
  0 < n ->
  Z.pos (digits2_pos M) = prec ->
  -1074 <= E -> E + n <= emax - prec ->
  binary_round_aux prec emax sx (2 ^ n * Z.pos M) E loc_Exact =
    S754_finite sx M (E + n).
Proof.
  intros Hn HM HE1 HE2.
  pose proof (digits2_pos_bounds M) as HMb. rewrite HM in HMb.
  unfold prec in *. change (2 ^ (53 - 1)) with (2 ^ 52) in HMb.
  assert (Hpow : 0 < 2 ^ n) by (apply Z.pow_pos_nonneg; lia).
  assert (HP : exists P : positive, 2 ^ n * Z.pos M = Z.pos P).
  { destruct (2 ^ n * Z.pos M) as [| P | P] eqn:HPeq; try lia. by exists P. }
  destruct HP as [P HP].
  assert (HdP : Z.pos (digits2_pos P) = 53 + n).
  { apply digits2_pos_unique. rewrite <- HP.
    replace (53 + n - 1) with (n + 52) by lia.
    replace (53 + n) with (n + 53) by lia.
    rewrite !Z.pow_add_r by lia. nia. }
  unfold binary_round_aux, shr_fexp. rewrite HP. cbn [Zdigits2].
  rewrite HdP. unfold fexp, emin, emax.
  replace (Z.max (53 + n + E - 53) (3 - 1024 - 53) - E) with n by lia.
  destruct n as [| pn | pn]; try lia. cbn [shr shr_record_of_loc].
  rewrite <- HP, iter_shr_1_exact by lia.
  cbn [loc_of_shr_record shr_m shr_r shr_s round_nearest_even Zdigits2].
  rewrite HM.
  replace (Z.max (53 + (E + Z.pos pn) - 53) (3 - 1024 - 53) - (E + Z.pos pn))
    with 0 by lia.
  cbn [shr shr_record_of_loc shr_m].
  destruct (Z.leb_spec (E + Z.pos pn) (1024 - 53)); [done | unfold emax in *; lia].
Qed.

End Shift.

Section Clamp.

Lemma of_Z_1 : of_Z 1 = S754_finite false 4503599627370496 (-52).
Proof. reflexivity. Qed.
Lemma of_Z_m1 : of_Z (-1) = S754_finite true 4503599627370496 (-52).
Proof. reflexivity. Qed.
Lemma of_Z_0 : of_Z 0 = S754_zero false.
Proof. reflexivity. Qed.
Lemma of_Z_0x8000 : of_Z 0x8000 = S754_finite false 4503599627370496 (-37).
Proof. reflexivity. Qed.
Lemma of_Z_0x7FFF : of_Z 0x7FFF = S754_finite false 9006924376834048 (-38).
Proof. reflexivity. Qed.

Lemma fits_float32_finite (s : bool) (m : positive) (e : Z) :
  fits_float32 (S754_finite s m e) = true ->
  Z.pos (digits2_pos m) = prec /\
  2 ^ 52 <= Z.pos m < 2 ^ 53 /\
  (exists m' : Z, Z.pos m = 2 ^ 29 * m' /\ 2 ^ 23 <= m' < 2 ^ 24) /\
  -201 <= e <= 75.
Proof.
  unfold fits_float32. rewrite !andb_true_iff.
  intros [[[Hd Hm] He1] He2].
  apply Z.eqb_eq in Hd, Hm. apply Z.leb_le in He1, He2.
  pose proof (digits2_pos_bounds m) as Hb. rewrite Hd in Hb.
  change (2 ^ (prec - 1)) with (2 ^ 52) in Hb. change (2 ^ prec) with (2 ^ 53) in Hb.
  split; [done |]. split; [done |]. split; [| done].
  exists (Z.pos m / 2 ^ 29).
  pose proof (Z.div_mod (Z.pos m) (2 ^ 29)) as Hdm.
  rewrite Hm in Hdm. lia.
Qed.

(** The clamp of a finite nonzero sample: itself below magnitude 1, the
    unit of its sign otherwise. *)
Lemma clamp_finite (s : bool) (m : positive) (e : Z) :
  Z.pos (digits2_pos m) = prec ->
  clamp (S754_finite s m e) =
    if e <? -52 then S754_finite s m e
    else S754_finite s 4503599627370496 (-52).
Proof.
  intros Hd. pose proof (digits2_pos_bounds m) as Hb. rewrite Hd in Hb.
  change (2 ^ (prec - 1)) with 4503599627370496 in Hb.
  destruct Hb as [Hb _]. clear Hd.
  unfold clamp. rewrite of_Z_1, of_Z_m1.
  unfold Math.min, Math.max, SFcompare.
  destruct s; destruct (Z.ltb_spec e (-52)) as [He | He].
  - destruct (Z.compare_spec (-52) e); try lia. done.
  - destruct (Z.compare_spec (-52) e) as [Heq | Hlt | Hgt]; try lia; [| done].
    change (Pos.compare_cont Eq 4503599627370496 m)
      with (Pos.compare 4503599627370496 m).
    destruct (Pos.compare 4503599627370496 m) eqn:Hc.
    + apply Pos.compare_eq in Hc. by subst.
    + by subst.
    + apply Pos.compare_gt_iff, Pos2Z.pos_lt_pos in Hc. lia.
  - destruct (Z.compare_spec (-52) e); try lia. done.
  - destruct (Z.compare_spec (-52) e) as [Heq | Hlt | Hgt]; try lia; [| done].
    change (Pos.compare_cont Eq 4503599627370496 m)
      with (Pos.compare 4503599627370496 m).
    destruct (Pos.compare 4503599627370496 m) eqn:Hc.
    + apply Pos.compare_eq in Hc. by subst.
    + by subst.
    + apply Pos.compare_gt_iff, Pos2Z.pos_lt_pos in Hc. lia.
Qed.

Lemma clamp_zero (s : bool) : clamp (S754_zero s) = S754_zero s.
Proof. by destruct s. Qed.

Lemma clamp_infinity (s : bool) :
  clamp (S754_infinity s) = S754_finite s 4503599627370496 (-52).
Proof. by destruct s. Qed.

Lemma clamp_nan : clamp S754_nan = S754_nan.
Proof. done. Qed.

End Clamp.


Section Scale.

(** A negative sample times 0x8000: the exponent moves by 15. *)
Lemma scale_negative (m : positive) (e : Z) :
  Z.pos (digits2_pos m) = prec ->
  -1037 <= e <= 956 ->
  scale (S754_finite true m e) = S754_finite true m (e + 15).
Proof.
  intros Hd He. unfold scale. rewrite of_Z_0, of_Z_0x8000.
  cbn [number_lt SFltb SFcompare number_mul SFmul xorb].
  rewrite Pos2Z.inj_mul, Z.mul_comm.
  change (Z.pos 4503599627370496) with (2 ^ 52).
  rewrite binary_round_aux_exact by (unfold emax, prec in *; lia).
  f_equal. lia.
Qed.

(** A positive sample of at most 24 significant bits times 0x7FFF: the
    product has at most 39 significant bits and is not rounded. *)
Lemma scale_positive (m : positive) (e : Z) :
  fits_float32 (S754_finite false m e) = true ->
  exists (M : positive) (n : Z),
    (n = 52 \/ n = 53) /\
    2 ^ n * Z.pos M = Z.pos m * (32767 * 2 ^ 38) /\
    Z.pos (digits2_pos M) = prec /\
    scale (S754_finite false m e) = S754_finite false M (e - 38 + n).
Proof.
  intros Hfit.
  destruct (fits_float32_finite _ _ _ Hfit)
    as (Hd & Hm & (m' & Hm' & Hm'b) & He).
  unfold scale. rewrite of_Z_0, of_Z_0x7FFF.
  cbn [number_lt SFltb SFcompare number_mul SFmul xorb].
  rewrite Pos2Z.inj_mul.
  change (Z.pos 9006924376834048) with (32767 * 2 ^ 38).
  set (t := m' * 32767).
  destruct (Z.lt_ge_cases t (2 ^ 38)) as [Hsmall | Hbig].
  - assert (HM : exists M : positive, Z.pos M = t * 2 ^ 15).
    { destruct (t * 2 ^ 15) as [| M | M] eqn:HMeq; try (unfold t in *; lia).
      by exists M. }
    destruct HM as [M HM]. exists M, 52.
    assert (HP : 2 ^ 52 * Z.pos M = Z.pos m * (32767 * 2 ^ 38))
      by (rewrite HM, Hm'; unfold t; lia).
    assert (HdM : Z.pos (digits2_pos M) = prec).
    { apply digits2_pos_unique. rewrite HM. unfold prec, t in *. lia. }
    split; [by left |]. split; [done |]. split; [done |].
    rewrite <- HP.
    rewrite binary_round_aux_exact by (unfold emax, prec in *; lia).
    f_equal.
  - assert (HM : exists M : positive, Z.pos M = t * 2 ^ 14).
    { destruct (t * 2 ^ 14) as [| M | M] eqn:HMeq; try (unfold t in *; lia).
      by exists M. }
    destruct HM as [M HM]. exists M, 53.
    assert (HP : 2 ^ 53 * Z.pos M = Z.pos m * (32767 * 2 ^ 38))
      by (rewrite HM, Hm'; unfold t; lia).
    assert (HdM : Z.pos (digits2_pos M) = prec).
    { apply digits2_pos_unique. rewrite HM. unfold prec, t in *. lia. }
    split; [by right |]. split; [done |]. split; [done |].
    rewrite <- HP.
    rewrite binary_round_aux_exact by (unfold emax, prec in *; lia).
    f_equal.
Qed.

End Scale.

Section Value.

Lemma pow2_to_pos (k : Z) : 0 < k -> Z.pos (2 ^ Z.to_pos k) = 2 ^ k.
Proof. intros Hk. rewrite Pos2Z.inj_pow. by rewrite Z2Pos.id. Qed.

(** The real value of a finite number with a negative exponent, as a
    fraction. *)
Lemma number_value_fraction (s : bool) (m : positive) (e : Z) :
  e < 0 ->
  number_value (S754_finite s m e) =
    Qmake (cond_Zopp s (Z.pos m)) (2 ^ Z.to_pos (- e)).
Proof.
  intros He. unfold number_value.
  destruct (Z.leb_spec 0 e); [lia | done].
Qed.

(** [truncate] rounds toward zero: the result is the integer between 0
    and the value that is less than 1 away from it. *)
Lemma truncate_toward_zero (x : number) :
  let y := number_value x in
  let v := truncate x in
  ((0 <= y)%Q -> (inject_Z v <= y)%Q /\ (y < inject_Z (v + 1))%Q) /\
  ((y <= 0)%Q -> (inject_Z (v - 1) < y)%Q /\ (y <= inject_Z v)%Q).
Proof.
  destruct x as [s0 | s0 | | s m e]; cbn [number_value truncate];
    try (unfold Qle, Qlt; simpl; lia).
  destruct (Z.leb_spec 0 e) as [He | He].
  - unfold Qle, Qlt. simpl. rewrite !Z.mul_1_r.
    destruct s; unfold cond_Zopp; lia.
  - unfold Qle, Qlt. cbn [Qnum Qden inject_Z].
    rewrite pow2_to_pos by lia. rewrite !Z.mul_1_r.
    assert (Hpow : 0 < 2 ^ (- e)) by (apply Z.pow_pos_nonneg; lia).
    pose proof (Z.div_mod (Z.pos m) (2 ^ (- e))) as Hdm.
    pose proof (Z.mod_pos_bound (Z.pos m) (2 ^ (- e)) Hpow) as Hmod.
    generalize dependent (Z.pos m / 2 ^ (- e)).
    generalize dependent (Z.pos m mod 2 ^ (- e)).
    generalize dependent (2 ^ (- e)).
    intros p Hp r Hr d Hd.
    destruct s; unfold cond_Zopp; nia.
Qed.

End Value.

Section SpecQuantiser.
Local Open Scope Q_scope.

Lemma spec_clamp_mid (q : Q) : -1 <= q <= 1 -> spec_clamp q == q.
Proof.
  intros [Hlo Hhi]. unfold spec_clamp.
  destruct (Qlt_le_dec q (-1)) as [H1 | H1].
  - exfalso. by apply (Qlt_not_le _ _ H1).
  - destruct (Qlt_le_dec 1 q) as [H2 | H2]; [| reflexivity].
    exfalso. by apply (Qlt_not_le _ _ H2).
Qed.

Lemma spec_clamp_high (q : Q) : 1 <= q -> spec_clamp q == 1.
Proof.
  intros Hq. unfold spec_clamp.
  destruct (Qlt_le_dec q (-1)) as [H1 | H1].
  - exfalso. apply (Qlt_not_le _ _ H1). by apply Qle_trans with 1.
  - destruct (Qlt_le_dec 1 q) as [H2 | H2]; [reflexivity |].
    by apply Qle_antisym.
Qed.

Lemma spec_clamp_low (q : Q) : q <= -1 -> spec_clamp q == -1.
Proof.
  intros Hq. unfold spec_clamp.
  destruct (Qlt_le_dec q (-1)) as [H1 | H1]; [reflexivity |].
  destruct (Qlt_le_dec 1 q) as [H2 | H2].
  - exfalso. apply (Qlt_not_le _ _ H2). by apply Qle_trans with (-1).
  - by apply Qle_antisym.
Qed.

Lemma spec_scale_negative (s : Q) : s < 0 -> spec_scale s = s * inject_Z 32768.
Proof.
  intros Hs. unfold spec_scale. destruct (Qlt_le_dec s 0) as [H | H]; [done |].
  exfalso. by apply (Qlt_not_le _ _ Hs).
Qed.

Lemma spec_scale_nonnegative (s : Q) : 0 <= s -> spec_scale s = s * inject_Z 32767.
Proof.
  intros Hs. unfold spec_scale. destruct (Qlt_le_dec s 0) as [H | H]; [| done].
  exfalso. by apply (Qlt_not_le _ _ H).
Qed.

Lemma spec_scale_compat (a b : Q) : a == b -> spec_scale a == spec_scale b.
Proof.
  intros Hab. unfold spec_scale.
  destruct (Qlt_le_dec a 0) as [Ha | Ha]; destruct (Qlt_le_dec b 0) as [Hb | Hb].
  - by rewrite Hab.
  - exfalso. rewrite Hab in Ha. by apply (Qlt_not_le _ _ Ha).
  - exfalso. rewrite Hab in Ha. by apply (Qlt_not_le _ _ Hb).
  - by rewrite Hab.
Qed.

End SpecQuantiser.

Section Exactness.

(** Below magnitude 1: exponent under -52. *)
Lemma value_small (s : bool) (m : positive) (e : Z) :
  2 ^ 52 <= Z.pos m < 2 ^ 53 -> e < -52 ->
  (-1 <= number_value (S754_finite s m e) <= 1)%Q /\
  (if s then number_value (S754_finite s m e) < 0
   else 0 <= number_value (S754_finite s m e))%Q.
Proof.
  intros Hm He. rewrite number_value_fraction by lia.
  unfold Qle, Qlt. cbn [Qnum Qden]. rewrite pow2_to_pos by lia.
  assert (2 ^ 53 <= 2 ^ (- e)) by (apply Z.pow_le_mono_r; lia).
  destruct s; unfold cond_Zopp; lia.
Qed.

(** At least magnitude 1: exponent from -52 up. *)
Lemma value_large (s : bool) (m : positive) (e : Z) :
  2 ^ 52 <= Z.pos m < 2 ^ 53 -> -52 <= e ->
  (if s then number_value (S754_finite s m e) <= -1
   else 1 <= number_value (S754_finite s m e))%Q.
Proof.
  intros Hm He. unfold number_value.
  destruct (Z.leb_spec 0 e) as [Hpos | Hneg].
  - unfold Qle. cbn [Qnum Qden inject_Z].
    assert (1 <= 2 ^ e) by (apply (Z.pow_le_mono_r 2 0 e); lia).
    destruct s; unfold cond_Zopp; nia.
  - unfold Qle. cbn [Qnum Qden]. rewrite pow2_to_pos by lia.
    assert (2 ^ (- e) <= 2 ^ 52) by (apply Z.pow_le_mono_r; lia).
    destruct s; unfold cond_Zopp; lia.
Qed.

(** The double product carries the exact real product. *)
Lemma scale_clamp_exact (x : number) :
  fits_float32 x = true -> is_finite x = true ->
  (number_value (clamp x) == spec_clamp (number_value x))%Q /\
  (number_value (scale (clamp x)) == spec_scale (spec_clamp (number_value x)))%Q.
Proof.
  intros Hfit Hfin. destruct x as [s | s | | s m e]; try discriminate.
  - rewrite clamp_zero. split; [by destruct s |]. by destruct s.
  - destruct (fits_float32_finite _ _ _ Hfit)
      as (Hd & Hm & _ & He).
    rewrite clamp_finite by done.
    destruct (Z.ltb_spec e (-52)) as [Hsmall | Hlarge].
    + destruct (value_small s m e Hm Hsmall) as [Hrange Hsign].
      pose proof (spec_clamp_mid _ Hrange) as Hclamp.
      split; [by rewrite Hclamp |].
      rewrite (spec_scale_compat _ _ Hclamp).
      destruct s.
      * rewrite scale_negative by lia.
        rewrite spec_scale_negative by done.
        rewrite !number_value_fraction by lia.
        unfold Qeq. cbn [Qnum Qden Qmult inject_Z cond_Zopp].
        rewrite Pos2Z.inj_mul, !pow2_to_pos by lia.
        replace (- e) with (15 + - (e + 15)) by lia.
        rewrite Z.pow_add_r by lia. change (2 ^ 15) with 32768. lia.
      * destruct (scale_positive m e Hfit) as (M & n & Hn & HP & HdM & Hscale).
        rewrite Hscale.
        rewrite spec_scale_nonnegative by done.
        rewrite !number_value_fraction by lia.
        unfold Qeq. cbn [Qnum Qden Qmult inject_Z cond_Zopp].
        rewrite Pos2Z.inj_mul, !pow2_to_pos by lia.
        replace (- e) with ((n - 38) + - (e - 38 + n)) by lia.
        rewrite Z.pow_add_r by lia.
        assert (HMn : Z.pos M * 2 ^ (n - 38) = Z.pos m * 32767).
        { assert (Hsplit : 2 ^ n = 2 ^ (n - 38) * 2 ^ 38).
          { rewrite <- Z.pow_add_r by lia. f_equal. lia. }
          rewrite Hsplit in HP. lia. }
        generalize dependent (2 ^ (n - 38)). intros. lia.
    + pose proof (value_large s m e Hm Hlarge) as Hbig.
      destruct s.
      * pose proof (spec_clamp_low _ Hbig) as Hclamp.
        split; [by rewrite Hclamp |].
        by rewrite (spec_scale_compat _ _ Hclamp).
      * pose proof (spec_clamp_high _ Hbig) as Hclamp.
        split; [by rewrite Hclamp |].
        by rewrite (spec_scale_compat _ _ Hclamp).
Qed.

End Exactness.

Section Range.

(** The spec's scaled clamped value lies in [-32768, 32767]. *)
Lemma spec_scale_clamp_range (q : Q) :
  (inject_Z (-32768) <= spec_scale (spec_clamp q) <= inject_Z 32767)%Q.
Proof.
  assert (Hclamp : (-1 <= spec_clamp q <= 1)%Q).
  { unfold spec_clamp.
    destruct (Qlt_le_dec q (-1)); [done |].
    destruct (Qlt_le_dec 1 q); done. }
  destruct (spec_clamp q) as [n d]. unfold spec_scale.
  destruct (Qlt_le_dec (n # d) 0) as [Hneg | Hpos];
    unfold Qle, Qlt in *; cbn [Qnum Qden Qmult inject_Z] in *; lia.
Qed.

(** An integer within 1 of a value of [-32768, 32767], on the side of
    zero, lies in that range. *)
Lemma truncation_in_range (y : Q) (v : Z) :
  (inject_Z (-32768) <= y <= inject_Z 32767)%Q ->
  ((0 <= y)%Q -> (inject_Z v <= y)%Q /\ (y < inject_Z (v + 1))%Q) ->
  ((y <= 0)%Q -> (inject_Z (v - 1) < y)%Q /\ (y <= inject_Z v)%Q) ->
  -32768 <= v <= 32767.
Proof.
  intros [Hlo Hhi] Hpos Hneg.
  destruct y as [n d]. unfold Qle, Qlt in *.
  cbn [Qnum Qden inject_Z] in *.
  destruct (Z.le_gt_cases 0 n) as [Hn | Hn].
  - destruct Hpos as [H1 H2]; [lia |]. nia.
  - destruct Hneg as [H1 H2]; [lia |]. nia.
Qed.

(** The number handed to [setInt16] truncates into the 16-bit range. *)
Lemma truncate_scaled_range (x : number) :
  fits_float32 x = true ->
  -32768 <= truncate (scale (clamp x)) <= 32767.
Proof.
  intros Hfit. destruct (is_finite x) eqn:Hfin.
  - destruct (scale_clamp_exact x Hfit Hfin) as [_ Hexact].
    pose proof (truncate_toward_zero (scale (clamp x))) as [Hpos Hneg].
    pose proof (spec_scale_clamp_range (number_value x)) as Hrange.
    rewrite <- Hexact in Hrange.
    by apply (truncation_in_range (number_value (scale (clamp x)))).
  - destruct x as [s | s | | s m e]; try discriminate.
    + destruct s; vm_compute; split; discriminate.
    + vm_compute; split; discriminate.
Qed.

(** Inside the 16-bit range [ToInt16] is the truncation: nothing wraps. *)
Lemma ToInt16_in_range (x : number) :
  -32768 <= truncate x <= 32767 -> ToInt16 x = truncate x.
Proof.
  intros Hr. unfold ToInt16.
  destruct (Z.le_gt_cases 0 (truncate x)) as [Hpos | Hneg].
  - rewrite Z.mod_small by lia.
    destruct (Z.leb_spec (2 ^ 15) (truncate x)); lia.
  - replace (truncate x mod 2 ^ 16) with (truncate x + 2 ^ 16).
    + destruct (Z.leb_spec (2 ^ 15) (truncate x + 2 ^ 16)); lia.
    + apply Z.mod_unique with (-1); lia.
Qed.

(** [ToInt16] always lands in the 16-bit range. *)
Lemma ToInt16_range (x : number) : -32768 <= ToInt16 x <= 32767.
Proof.
  unfold ToInt16.
  pose proof (Z.mod_pos_bound (truncate x) (2 ^ 16)) as Hm.
  destruct (Z.leb_spec (2 ^ 15) (truncate x mod 2 ^ 16)); lia.
Qed.

Lemma pcm16_truncate (x : number) :
  fits_float32 x = true -> pcm16 x = truncate (scale (clamp x)).
Proof.
  intros Hfit. unfold pcm16. by apply ToInt16_in_range, truncate_scaled_range.
Qed.

(** A sample below -1 or above 1 is clamped to -1 or 1. *)
Lemma clamp_outside (x : number) :
  fits_float32 x = true -> is_finite x = true ->
  ((number_value x < -1)%Q -> clamp x = of_Z (-1)) /\
  ((1 < number_value x)%Q -> clamp x = of_Z 1).
Proof.
  intros Hfit Hfin. destruct x as [s | s | | s m e]; try discriminate.
  - split; intros H; by vm_compute in H.
  - destruct (fits_float32_finite _ _ _ Hfit) as (Hd & Hm & _ & He).
    rewrite clamp_finite by done.
    destruct (Z.ltb_spec e (-52)) as [Hsmall | Hlarge].
    + destruct (value_small s m e Hm Hsmall) as [[Hlo Hhi] _].
      split; intros H; exfalso; by apply (Qlt_not_le _ _ H).
    + pose proof (value_large s m e Hm Hlarge) as Hbig.
      destruct s; split; intros H; try done; exfalso.
      * apply (Qlt_not_le _ _ H). by apply Qle_trans with (-1)%Q.
      * apply (Qlt_not_le _ _ H). by apply Qle_trans with 1%Q.
Qed.

(** Every clamped sample is [NaN] or a finite number of [-1, 1]. *)
Lemma clamp_range (x : number) :
  fits_float32 x = true ->
  clamp x = S754_nan \/
  is_finite (clamp x) = true /\ (-1 <= number_value (clamp x) <= 1)%Q.
Proof.
  intros Hfit. destruct x as [s | s | | s m e].
  - right. rewrite clamp_zero. by split.
  - right. rewrite clamp_infinity. split; [done |]. by destruct s.
  - left. apply clamp_nan.
  - right. destruct (fits_float32_finite _ _ _ Hfit) as (Hd & Hm & _ & He).
    rewrite clamp_finite by done.
    destruct (Z.ltb_spec e (-52)) as [Hsmall | Hlarge].
    + split; [done |]. by destruct (value_small s m e Hm Hsmall).
    + split; [done |]. by destruct s.
Qed.

End Range.

(** ** The WAV encoder *)

Section Encoder.
Local Open Scope nat_scope.

Lemma length_le_bytes n v : length (le_bytes n v) = n.
Proof. revert v. induction n as [|n IH]; intros v; simpl; [done | by rewrite IH]. Qed.

Lemma length_pcm_payload (input : Float32Array) :
  length (pcm_payload input) = 2 * length input.
Proof.
  unfold pcm_payload. induction input as [|x input IH]; [done |].
  rewrite bind_cons, length_app, IH, length_le_bytes. simpl. lia.
Qed.

(** The thirteen header writes fill the first 44 bytes of a zeroed view
    and touch nothing after them. *)
Lemma header_writes {A : Type} (rest : list Z) (dl nc sr : Z)
    (k : ArrayBuffer -> result A) :
  (view ← writeString (replicate 44 0%Z ++ rest) 0 "RIFF";
   view ← DataView.setUint32 view 4 (36 + dl);
   view ← writeString view 8 "WAVE";
   view ← writeString view 12 "fmt ";
   view ← DataView.setUint32 view 16 16;
   view ← DataView.setUint16 view 20 1;
   view ← DataView.setUint16 view 22 nc;
   view ← DataView.setUint32 view 24 sr;
   view ← DataView.setUint32 view 28 (sr * nc * (16 / 8));
   view ← DataView.setUint16 view 32 (nc * (16 / 8));
   view ← DataView.setUint16 view 34 16;
   view ← writeString view 36 "data";
   view ← DataView.setUint32 view 40 dl;
   k view)
  = k (wav_header dl nc sr ++ rest).
Proof. reflexivity. Qed.

(** A write that fits replaces exactly the bytes it covers. *)
Lemma list_inserts_middle (pre bs rest : list Z) :
  length bs <= length rest ->
  list_inserts (length pre) bs (pre ++ rest) =
    pre ++ bs ++ drop (length bs) rest.
Proof.
  intros Hlen.
  rewrite <- (Nat.add_0_r (length pre)), list_inserts_app_r. f_equal.
  rewrite <- (take_drop (length bs) rest) at 1.
  apply list_inserts_0_r. rewrite length_take. lia.
Qed.

Lemma SetViewValue_middle (pre bs rest : list Z) :
  length bs <= length rest ->
  DataView.SetViewValue (pre ++ rest) (length pre) bs =
    Ok (pre ++ bs ++ drop (length bs) rest).
Proof.
  intros Hlen. unfold DataView.SetViewValue.
  rewrite length_app.
  destruct (Nat.leb_spec (length pre + length bs)
              (length pre + length rest)) as [_ | Hbad]; [| lia].
  by rewrite list_inserts_middle.
Qed.

(** [floatTo16BitPCM] fills the room after [pre] with the payload. *)
Lemma floatTo16BitPCM_spec (pre rest : list Z) (input : Float32Array) :
  length rest = 2 * length input ->
  floatTo16BitPCM (pre ++ rest) (length pre) input =
    Ok (pre ++ pcm_payload input).
Proof.
  intros Hrest. unfold floatTo16BitPCM.
  match goal with |- context [for_range 0 _ ?body _] =>
    destruct (for_range_inv
      (fun i (st : ArrayBuffer * nat) =>
         st.2 = length pre + 2 * i /\
         st.1 = pre ++ pcm_payload (take i input) ++ drop (2 * i) rest)
      body (length input) 0 (pre ++ rest, length pre))
      as ([out off] & Hrun & Hoff & Hout)
  end.
  - cbn [fst snd]. split; [lia | done].
  - intros i [output offset] Hi [Hoff Hout]. cbn [fst snd] in Hoff, Hout. subst.
    destruct (lookup_lt_is_Some_2 input i) as [x Hx]; [lia |].
    rewrite (get_lookup _ _ _ Hx). cbv zeta.
    unfold DataView.setInt16. fold (pcm16 x).
    rewrite app_assoc.
    replace (length pre + 2 * i) with
      (length (pre ++ pcm_payload (take i input)))
      by (rewrite length_app, length_pcm_payload, length_take; lia).
    rewrite SetViewValue_middle
      by (rewrite length_le_bytes, length_drop; lia).
    eexists. split; [reflexivity |]. cbn [fst snd]. split.
    + rewrite length_app, length_pcm_payload, length_take. lia.
    + rewrite (take_S_r _ _ _ Hx). unfold pcm_payload at 2.
      rewrite bind_app. fold (pcm_payload (take i input)).
      rewrite bind_cons. change ([] ≫= _) with (@nil Z). rewrite app_nil_r.
      rewrite length_le_bytes, drop_drop, <- !app_assoc.
      by replace (2 * S i) with (2 * i + 2) by lia.
  - rewrite Hrun. cbn [fst snd] in *. subst. simpl. f_equal.
    rewrite take_ge by lia. rewrite drop_ge by lia. by rewrite app_nil_r.
Qed.

(** The closed form of the encoder on a rectangular buffer: it returns,
    and the blob is the header followed by the payload of the
    interleaved samples. *)
Lemma audioBufferToWavBlob_spec (buffer : AudioBuffer.t) (flat : Float32Array) :
  interleave buffer = Ok flat ->
  audioBufferToWavBlob buffer =
    Ok (mkBlob
          (wav_header (Z.of_nat (length flat) * 2)
             (Z.of_nat (AudioBuffer.numberOfChannels buffer))
             (AudioBuffer.sampleRate buffer)
           ++ pcm_payload flat)
          "audio/wav").
Proof.
  intros Hflat. unfold audioBufferToWavBlob. rewrite Hflat. simpl mbind.
  cbv zeta. change (16 / 8)%Z with 2%Z.
  replace (new_ArrayBuffer (Z.to_nat (44 + Z.of_nat (length flat) * 2)))
    with (replicate 44 0%Z ++ replicate (2 * length flat) 0%Z).
  2:{ unfold new_ArrayBuffer. rewrite <- replicate_add. f_equal. lia. }
  change 2%Z with (16 / 8)%Z at 2 3.
  rewrite (header_writes (replicate (2 * length flat) 0%Z)
             (Z.of_nat (length flat) * 2)
             (Z.of_nat (AudioBuffer.numberOfChannels buffer))
             (AudioBuffer.sampleRate buffer)).
  change 44 with (length (wav_header (Z.of_nat (length flat) * 2)
             (Z.of_nat (AudioBuffer.numberOfChannels buffer))
             (AudioBuffer.sampleRate buffer))) at 1.
  rewrite floatTo16BitPCM_spec by (rewrite length_replicate; lia).
  done.
Qed.
End Encoder.

(** ** Reading the encoded bytes back *)

Section Fields.
Lemma le_combine_le_bytes (n : nat) : forall v : Z,
  le_combine (le_bytes n v) = v mod 2 ^ (8 * Z.of_nat n).
Proof.
  induction n as [|n IH]; intros v.
  - simpl. by rewrite Z.mod_1_r.
  - cbn [le_bytes le_combine]. rewrite IH.
    replace (8 * Z.of_nat (S n)) with (8 + 8 * Z.of_nat n) by lia.
    rewrite Z.pow_add_r by lia. change (2 ^ 8) with 256.
    rewrite Z.rem_mul_r by lia. done.
Qed.

Lemma u16_le_bytes (v : Z) : le_combine (le_bytes 2 (ToUint16 v)) = ToUint16 v.
Proof.
  rewrite le_combine_le_bytes. unfold ToUint16.
  change (8 * Z.of_nat 2) with 16. by rewrite Z.mod_mod.
Qed.

Lemma u32_le_bytes (v : Z) : le_combine (le_bytes 4 (ToUint32 v)) = ToUint32 v.
Proof.
  rewrite le_combine_le_bytes. unfold ToUint32.
  change (8 * Z.of_nat 4) with 32. by rewrite Z.mod_mod.
Qed.

Lemma ToUint16_small (v : Z) : 0 <= v < 2 ^ 16 -> ToUint16 v = v.
Proof. intros Hv. by apply Z.mod_small. Qed.

Lemma ToUint32_small (v : Z) : 0 <= v < 2 ^ 32 -> ToUint32 v = v.
Proof. intros Hv. by apply Z.mod_small. Qed.

(** The two bytes [setInt16] writes read back as the signed value. *)
Lemma i16_le_bytes (v : Z) :
  -32768 <= v <= 32767 ->
  (let u := le_combine (le_bytes 2 (v mod 2 ^ 16)) in
   if 2 ^ 15 <=? u then u - 2 ^ 16 else u) = v.
Proof.
  intros Hv. cbv zeta. rewrite le_combine_le_bytes.
  change (8 * Z.of_nat 2) with 16. rewrite Z.mod_mod by lia.
  destruct (Z.le_gt_cases 0 v) as [Hpos | Hneg].
  - rewrite Z.mod_small by lia. destruct (Z.leb_spec (2 ^ 15) v); lia.
  - replace (v mod 2 ^ 16) with (v + 2 ^ 16)
      by (apply Z.mod_unique with (-1); lia).
    destruct (Z.leb_spec (2 ^ 15) (v + 2 ^ 16)); lia.
Qed.

Local Open Scope nat_scope.

(** A field inside the header does not depend on what follows it. *)
Lemma bytes_at_header (h payload : list Z) (offset n : nat) :
  offset + n <= length h ->
  bytes_at (h ++ payload) offset n = bytes_at h offset n.
Proof.
  intros Hfit. unfold bytes_at.
  rewrite drop_app_le by lia. rewrite take_app_le; [done |].
  rewrite length_drop. lia.
Qed.

Lemma bytes_at_payload (h payload : list Z) (offset n : nat) :
  bytes_at (h ++ payload) (length h + offset) n = bytes_at payload offset n.
Proof. unfold bytes_at. by rewrite drop_app_add. Qed.

(** Sample [k] of the payload occupies bytes [2k] and [2k + 1]. *)
Lemma bytes_at_pcm_payload (input : Float32Array) : forall (k : nat) (x : number),
  input !! k = Some x ->
  bytes_at (pcm_payload input) (2 * k) 2 = le_bytes 2 (pcm16 x mod 2 ^ 16).
Proof.
  induction input as [|y input IH]; intros k x Hk; [done |].
  destruct k as [|k].
  - simpl in Hk. by injection Hk as ->.
  - simpl in Hk. replace (2 * S k) with (2 + 2 * k) by lia.
    unfold pcm_payload. rewrite bind_cons. fold (pcm_payload input).
    rewrite <- (IH k x Hk).
    change 2 with (length (le_bytes 2 (pcm16 y mod 2 ^ 16))) at 1.
    apply bytes_at_payload.
Qed.

Lemma i16_at_pcm_payload (h : list Z) (input : Float32Array) (k : nat) (x : number) :
  input !! k = Some x ->
  i16_at (h ++ pcm_payload input) (length h + 2 * k) = pcm16 x.
Proof.
  intros Hk. unfold i16_at, u16_at.
  rewrite bytes_at_payload, (bytes_at_pcm_payload _ _ _ Hk).
  apply i16_le_bytes. apply ToInt16_range.
Qed.

(** Every element of the output is a byte. *)
Lemma le_bytes_are_bytes (n : nat) : forall v : Z,
  Forall (fun b => (0 <= b < 256)%Z) (le_bytes n v).
Proof.
  induction n as [|n IH]; intros v; simpl; constructor; [| apply IH].
  apply Z.mod_pos_bound. lia.
Qed.

Lemma pcm_payload_are_bytes (input : Float32Array) :
  Forall (fun b => (0 <= b < 256)%Z) (pcm_payload input).
Proof.
  unfold pcm_payload. induction input as [|x input IH]; [constructor |].
  rewrite bind_cons. apply Forall_app. split; [apply le_bytes_are_bytes | done].
Qed.

Lemma wav_header_are_bytes (dl nc sr : Z) :
  Forall (fun b => (0 <= b < 256)%Z) (wav_header dl nc sr).
Proof.
  unfold wav_header.
  repeat (apply Forall_app; split);
    first [ apply le_bytes_are_bytes | by repeat constructor ].
Qed.
End Fields.

(** ** The encoder in closed form *)

(** The encoder on a rectangular buffer, in closed form. *)
Lemma encode_closed_form (buffer : AudioBuffer.t) :
  AudioBuffer.rectangular buffer ->
  exists flat : Float32Array,
    interleave buffer = Ok flat /\
    List.length flat =
      (AudioBuffer.length buffer * AudioBuffer.numberOfChannels buffer)%nat /\
    audioBufferToWavBlob buffer =
      Ok (mkBlob
            (wav_header (Z.of_nat (List.length flat) * 2)
               (Z.of_nat (AudioBuffer.numberOfChannels buffer))
               (AudioBuffer.sampleRate buffer)
             ++ pcm_payload flat)
            "audio/wav").
Proof.
  intros Hrect.
  destruct (interleave_spec buffer Hrect) as (flat & Hflat & Hlen & _).
  exists flat. split; [done |]. split; [done |].
  by apply audioBufferToWavBlob_spec.
Qed.

(** ** The inputs the theorems are run on *)

Lemma example_buffer_valid : AudioBuffer.valid example_buffer.
Proof.
  unfold AudioBuffer.valid, AudioBuffer.rectangular. simpl.
  repeat split; try lia; repeat constructor.
Defined.

Lemma example_buffer_rectangular : AudioBuffer.rectangular example_buffer.
Proof. repeat constructor. Defined.

Lemma empty_buffer_rectangular : AudioBuffer.rectangular empty_buffer.
Proof. repeat constructor. Defined.

(** * The claims *)

(** C1. For an input that decodes to a (valid) buffer, [reverseAudioBuffer]
    returns a buffer with the same sample rate, the same number of
    channels in the same order and the same frame count, every channel as
    long as the frame count, and sample [i] of channel [k] is sample
    [frameCount - 1 - i] of the decoded channel [k], unchanged. *)
Theorem reverse_shape_and_samples
    (decodeAudioData : ArrayBuffer -> result AudioBuffer.t)
    (audioBlob : Blob) (buf : AudioBuffer.t) :
  decodeAudioData (blob_bytes audioBlob) = Ok buf ->
  AudioBuffer.valid buf ->
  exists out,
    reverseAudioBuffer decodeAudioData audioBlob = Some out /\
    AudioBuffer.sampleRate out = AudioBuffer.sampleRate buf /\
    AudioBuffer.numberOfChannels out = AudioBuffer.numberOfChannels buf /\
    AudioBuffer.length out = AudioBuffer.length buf /\
    forall (k : nat) (c : Float32Array),
      AudioBuffer.channelData buf !! k = Some c ->
      exists c' : Float32Array,
        AudioBuffer.channelData out !! k = Some c' /\
        List.length c' = AudioBuffer.length buf /\
        forall i : nat, (i < AudioBuffer.length buf)%nat ->
          c' !! i = c !! (AudioBuffer.length buf - 1 - i)%nat.
Proof.
  intros Hdec Hvalid. eexists. split.
  { by apply reverseAudioBuffer_decoded. }
  simpl. unfold AudioBuffer.numberOfChannels. simpl.
  rewrite length_fmap. repeat split.
  intros k c Hc. exists (reverse c).
  assert (Hlen : List.length c = AudioBuffer.length buf).
  { destruct Hvalid as [Hrect _]. unfold AudioBuffer.rectangular in Hrect.
    rewrite Forall_lookup in Hrect. by apply (Hrect k). }
  rewrite list_lookup_fmap, Hc, length_reverse. repeat split; [done |].
  intros i Hi. rewrite reverse_lookup by lia. f_equal. lia.
Qed.

Lemma reverse_shape_and_samples_witness :
  exists out,
    reverseAudioBuffer sample_decoder (mkBlob [1] "audio/webm") = Some out /\
    AudioBuffer.sampleRate out = 44100 /\
    AudioBuffer.numberOfChannels out = 2%nat /\
    AudioBuffer.length out = 2%nat /\
    forall (k : nat) (c : Float32Array),
      AudioBuffer.channelData example_buffer !! k = Some c ->
      exists c' : Float32Array,
        AudioBuffer.channelData out !! k = Some c' /\
        List.length c' = 2%nat /\
        forall i : nat, (i < 2)%nat -> c' !! i = c !! (2 - 1 - i)%nat.
Proof.
  exact (reverse_shape_and_samples sample_decoder (mkBlob [1] "audio/webm")
           example_buffer eq_refl example_buffer_valid).
Defined.

(** C2 (as stated, refuted). The sample 0.25 scales to 8191.75; the code
    stores 8191, which is not a nearest integer (8192 is). *)
Lemma quantize_not_nearest :
  fits_float32 (dyadic 1 (-2)) = true /\
  (number_value (dyadic 1 (-2)) == 1 # 4)%Q /\
  pcm16 (dyadic 1 (-2)) = 8191 /\
  nearest_integer (spec_scale (spec_clamp (number_value (dyadic 1 (-2))))) 8192 /\
  ~ spec_rounds_to_nearest (dyadic 1 (-2)).
Proof.
  split; [reflexivity |]. split; [reflexivity |]. split; [reflexivity |].
  split.
  - unfold nearest_integer. vm_compute. discriminate.
  - unfold spec_rounds_to_nearest, nearest_integer.
    vm_compute. intros H. by apply H.
Qed.

(** C2 (amended). A finite sample of a [Float32Array], of real value [q],
    is clamped to [-1, 1] and scaled by 32768 when negative and by 32767
    otherwise, the double product being the exact real product [y]; the
    stored integer [v] is [y] truncated toward zero: it lies between 0 and
    [y], less than 1 away from [y].  An infinite sample is stored as the
    full-scale value of its sign, [NaN] as 0. *)
Theorem quantize_truncates (x : number) :
  fits_float32 x = true ->
  (is_finite x = true ->
     let q := number_value x in
     let y := spec_scale (spec_clamp q) in
     let v := pcm16 x in
     (number_value (clamp x) == spec_clamp q)%Q /\
     (number_value (scale (clamp x)) == y)%Q /\
     ((0 <= y)%Q -> (inject_Z v <= y)%Q /\ (y < inject_Z (v + 1))%Q) /\
     ((y <= 0)%Q -> (inject_Z (v - 1) < y)%Q /\ (y <= inject_Z v)%Q)) /\
  pcm16 (S754_infinity false) = 32767 /\
  pcm16 (S754_infinity true) = -32768 /\
  pcm16 S754_nan = 0.
Proof.
  intros Hfit. split; [| by vm_compute].
  intros Hfin q y v.
  destruct (scale_clamp_exact x Hfit Hfin) as [Hclamp Hexact].
  fold q in Hclamp, Hexact. fold y in Hexact.
  split; [exact Hclamp |]. split; [exact Hexact |].
  pose proof (truncate_toward_zero (scale (clamp x))) as [Hpos Hneg].
  unfold v. rewrite (pcm16_truncate x Hfit).
  split; intros Hy; rewrite <- Hexact in *; auto.
Qed.

Lemma quantize_truncates_witness :
  let x := dyadic 13421773 (-27) in
  fits_float32 x = true /\ is_finite x = true /\ pcm16 x = 3276 /\
  ((0 <= spec_scale (spec_clamp (number_value x)))%Q ->
   (inject_Z (pcm16 x) <= spec_scale (spec_clamp (number_value x)))%Q /\
   (spec_scale (spec_clamp (number_value x)) < inject_Z (pcm16 x + 1))%Q).
Proof.
  split; [reflexivity |]. split; [reflexivity |]. split; [reflexivity |].
  exact (proj1 (proj2 (proj2
    (proj1 (quantize_truncates (dyadic 13421773 (-27)) eq_refl) eq_refl)))).
Defined.

(** C3. On a rectangular buffer the encoder returns a blob of type
    audio/wav whose first 44 bytes are the RIFF/WAVE header, every
    multi-byte integer little-endian: "RIFF", 36 + dataLength, "WAVE",
    "fmt ", 16, the format tag 1, channelCount, sampleRate,
    sampleRate * channelCount * 2, channelCount * 2, 16, "data",
    dataLength, with dataLength = frameCount * channelCount * 2; each
    integer is held as an unsigned value of its field's width ([ToUint16],
    [ToUint32]), which is the integer itself whenever it fits the field.
    The samples follow from byte 44 on, two bytes each, little-endian,
    frame by frame and channel by channel within a frame, each the 16-bit
    value [pcm16] of its sample. *)
Theorem wav_header_layout (buffer : AudioBuffer.t) :
  AudioBuffer.rectangular buffer ->
  let frameCount := AudioBuffer.length buffer in
  let channelCount := AudioBuffer.numberOfChannels buffer in
  let sampleRate := AudioBuffer.sampleRate buffer in
  let dataLength := Z.of_nat (frameCount * channelCount * 2) in
  exists bytes : list Z,
    audioBufferToWavBlob buffer = Ok (mkBlob bytes "audio/wav") /\
    List.length bytes = (44 + frameCount * channelCount * 2)%nat /\
    Forall (fun b => 0 <= b < 256) bytes /\
    bytes_at bytes 0 4 = string_bytes "RIFF" /\
    u32_at bytes 4 = ToUint32 (36 + dataLength) /\
    bytes_at bytes 8 4 = string_bytes "WAVE" /\
    bytes_at bytes 12 4 = string_bytes "fmt " /\
    u32_at bytes 16 = 16 /\
    u16_at bytes 20 = 1 /\
    u16_at bytes 22 = ToUint16 (Z.of_nat channelCount) /\
    u32_at bytes 24 = ToUint32 sampleRate /\
    u32_at bytes 28 = ToUint32 (sampleRate * Z.of_nat channelCount * 2) /\
    u16_at bytes 32 = ToUint16 (Z.of_nat channelCount * 2) /\
    u16_at bytes 34 = 16 /\
    bytes_at bytes 36 4 = string_bytes "data" /\
    u32_at bytes 40 = ToUint32 dataLength /\
    (36 + dataLength < 2 ^ 32 -> Z.of_nat channelCount < 2 ^ 15 ->
     0 <= sampleRate < 2 ^ 32 ->
     sampleRate * Z.of_nat channelCount * 2 < 2 ^ 32 ->
       u32_at bytes 4 = 36 + dataLength /\
       u16_at bytes 22 = Z.of_nat channelCount /\
       u32_at bytes 24 = sampleRate /\
       u32_at bytes 28 = sampleRate * Z.of_nat channelCount * 2 /\
       u16_at bytes 32 = Z.of_nat channelCount * 2 /\
       u32_at bytes 40 = dataLength) /\
    forall i j : nat, (i < frameCount)%nat -> (j < channelCount)%nat ->
      exists (c : Float32Array) (x : number),
        AudioBuffer.channelData buffer !! j = Some c /\
        c !! i = Some x /\
        i16_at bytes (44 + 2 * (i * channelCount + j)) = pcm16 x.
Proof.
  intros Hrect frameCount channelCount sampleRate dataLength.
  destruct (interleave_spec buffer Hrect) as (flat & Hflat & Hlen & Hsamples).
  fold frameCount channelCount in Hlen, Hsamples.
  pose proof (audioBufferToWavBlob_spec buffer flat Hflat) as Henc.
  fold channelCount sampleRate in Henc.
  replace (Z.of_nat (List.length flat) * 2) with dataLength in Henc
    by (unfold dataLength; lia).
  set (nc := Z.of_nat channelCount) in *.
  set (header := wav_header dataLength nc sampleRate) in *.
  exists (header ++ pcm_payload flat).
  assert (Hfields :
    u32_at (header ++ pcm_payload flat) 4 = ToUint32 (36 + dataLength) /\
    u16_at (header ++ pcm_payload flat) 22 = ToUint16 nc /\
    u32_at (header ++ pcm_payload flat) 24 = ToUint32 sampleRate /\
    u32_at (header ++ pcm_payload flat) 28 = ToUint32 (sampleRate * nc * 2) /\
    u16_at (header ++ pcm_payload flat) 32 = ToUint16 (nc * 2) /\
    u32_at (header ++ pcm_payload flat) 40 = ToUint32 dataLength).
  { unfold u32_at, u16_at. rewrite !bytes_at_header by (simpl; lia).
    repeat split; first [ apply u32_le_bytes | apply u16_le_bytes ]. }
  destruct Hfields as (H4 & H22 & H24 & H28 & H32 & H40).
  split; [exact Henc |].
  split; [rewrite length_app, length_pcm_payload, Hlen; simpl; lia |].
  split; [apply Forall_app; split;
          [apply wav_header_are_bytes | apply pcm_payload_are_bytes] |].
  split; [by rewrite bytes_at_header by (simpl; lia) |].
  split; [exact H4 |].
  split; [by rewrite bytes_at_header by (simpl; lia) |].
  split; [by rewrite bytes_at_header by (simpl; lia) |].
  split; [unfold u32_at; by rewrite bytes_at_header by (simpl; lia) |].
  split; [unfold u16_at; by rewrite bytes_at_header by (simpl; lia) |].
  split; [exact H22 |].
  split; [exact H24 |].
  split; [exact H28 |].
  split; [exact H32 |].
  split; [unfold u16_at; by rewrite bytes_at_header by (simpl; lia) |].
  split; [by rewrite bytes_at_header by (simpl; lia) |].
  split; [exact H40 |].
  split.
  - intros Hd Hc Hs Hb.
    rewrite H4, H22, H24, H28, H32, H40.
    rewrite !ToUint32_small, !ToUint16_small by (unfold dataLength, nc in *; lia).
    done.
  - intros i j Hi Hj.
    destruct (Hsamples i j Hi Hj) as (c & x & Hc & Hx & Hflatx).
    exists c, x. split; [done |]. split; [done |].
    change 44%nat with (List.length header).
    by apply i16_at_pcm_payload.
Qed.

Lemma wav_header_layout_witness :
  AudioBuffer.rectangular example_buffer /\
  exists bytes : list Z,
    audioBufferToWavBlob example_buffer = Ok (mkBlob bytes "audio/wav") /\
    List.length bytes = 52%nat /\
    u32_at bytes 4 = 44 /\
    u16_at bytes 22 = 2 /\
    u32_at bytes 24 = 44100 /\
    u32_at bytes 28 = 176400 /\
    u16_at bytes 32 = 4 /\
    u32_at bytes 40 = 8.
Proof.
  split; [exact example_buffer_rectangular |].
  destruct (wav_header_layout example_buffer example_buffer_rectangular)
    as (bytes & Henc & Hlen & _ & _ & _ & _ & _ & _ & _ & _ & _ & _ & _ & _
        & _ & _ & Hfit & _).
  exists bytes. split; [exact Henc |]. split; [exact Hlen |].
  destruct Hfit as (H4 & H22 & H24 & H28 & H32 & H40);
    [reflexivity | reflexivity | split; [discriminate | reflexivity]
    | reflexivity |].
  repeat split; assumption.
Defined.

(** C4 (as stated, refuted). The encoder does return 52 bytes for the
    worked example, but the payload is not the one the spec gives: the
    second sample, 0.5, scales to 16383.5 and is stored as 16383. *)
Lemma example_payload_differs :
  exists bytes : list Z,
    audioBufferToWavBlob example_buffer = Ok (mkBlob bytes "audio/wav") /\
    List.length bytes = 52%nat /\
    bytes_at bytes 44 8 <> spec_example_payload /\
    i16_at bytes 46 = 16383.
Proof.
  eexists. split; [reflexivity |]. split; [reflexivity |].
  split; [| reflexivity].
  intros H. vm_compute in H. discriminate.
Qed.

(** C4 (amended). For the worked example the encoder returns exactly 52
    bytes: "RIFF" at 0, 44 at 4, 2 at 22, 44100 at 24, 8 at 40, all
    little-endian, and the payload holds the 16-bit values 32767, 16383,
    -32768, 0 in that order. *)
Theorem example_encoding :
  exists bytes : list Z,
    audioBufferToWavBlob example_buffer = Ok (mkBlob bytes "audio/wav") /\
    List.length bytes = 52%nat /\
    bytes_at bytes 0 4 = string_bytes "RIFF" /\
    bytes_at bytes 4 4 = [44; 0; 0; 0] /\ u32_at bytes 4 = 44 /\
    bytes_at bytes 22 2 = [2; 0] /\ u16_at bytes 22 = 2 /\
    bytes_at bytes 24 4 = [68; 172; 0; 0] /\ u32_at bytes 24 = 44100 /\
    bytes_at bytes 40 4 = [8; 0; 0; 0] /\ u32_at bytes 40 = 8 /\
    bytes_at bytes 44 8 = [255; 127; 255; 63; 0; 128; 0; 0] /\
    [i16_at bytes 44; i16_at bytes 46; i16_at bytes 48; i16_at bytes 50]
      = [32767; 16383; -32768; 0].
Proof. eexists. repeat split; reflexivity. Qed.

(** C5. On a rectangular buffer [interleave] returns one flat array of
    [frameCount * channelCount] samples whose element
    [i * channelCount + j] is sample [i] of channel [j]. *)
Theorem interleave_frame_major (buffer : AudioBuffer.t) :
  AudioBuffer.rectangular buffer ->
  let frameCount := AudioBuffer.length buffer in
  let channelCount := AudioBuffer.numberOfChannels buffer in
  exists flat : Float32Array,
    interleave buffer = Ok flat /\
    List.length flat = (frameCount * channelCount)%nat /\
    forall i j : nat, (i < frameCount)%nat -> (j < channelCount)%nat ->
      exists (c : Float32Array) (x : number),
        AudioBuffer.channelData buffer !! j = Some c /\
        c !! i = Some x /\
        flat !! (i * channelCount + j)%nat = Some x.
Proof. intros Hrect. by apply interleave_spec. Qed.

Lemma interleave_frame_major_witness :
  AudioBuffer.rectangular example_buffer /\
  exists flat : Float32Array,
    interleave example_buffer = Ok flat /\
    List.length flat = (2 * 2)%nat /\
    forall i j : nat, (i < 2)%nat -> (j < 2)%nat ->
      exists (c : Float32Array) (x : number),
        AudioBuffer.channelData example_buffer !! j = Some c /\
        c !! i = Some x /\
        flat !! (i * 2 + j)%nat = Some x.
Proof.
  split; [exact example_buffer_rectangular |].
  exact (interleave_frame_major example_buffer example_buffer_rectangular).
Defined.

(** C6. On a rectangular buffer the encoder returns exactly
    [44 + frameCount * channelCount * 2] bytes, the header and the payload
    and nothing after them; with no frames it returns the 44 header bytes,
    the data length field being 0. *)
Theorem wav_size_law (buffer : AudioBuffer.t) :
  AudioBuffer.rectangular buffer ->
  let frameCount := AudioBuffer.length buffer in
  let channelCount := AudioBuffer.numberOfChannels buffer in
  exists bytes : list Z,
    audioBufferToWavBlob buffer = Ok (mkBlob bytes "audio/wav") /\
    List.length bytes = (44 + frameCount * channelCount * 2)%nat /\
    (frameCount = 0%nat -> List.length bytes = 44%nat /\ u32_at bytes 40 = 0).
Proof.
  intros Hrect frameCount channelCount.
  destruct (encode_closed_form buffer Hrect) as (flat & _ & Hlen & Henc).
  fold frameCount channelCount in Hlen.
  eexists. split; [exact Henc |].
  assert (Hsize : List.length
            (wav_header (Z.of_nat (List.length flat) * 2)
               (Z.of_nat (AudioBuffer.numberOfChannels buffer))
               (AudioBuffer.sampleRate buffer) ++ pcm_payload flat)
          = (44 + frameCount * channelCount * 2)%nat).
  { rewrite length_app, length_pcm_payload, Hlen. simpl. lia. }
  split; [exact Hsize |].
  intros Hzero. split; [rewrite Hsize, Hzero; done |].
  rewrite Hzero in Hlen. simpl in Hlen. rewrite Hlen.
  unfold u32_at. by rewrite bytes_at_header by (simpl; lia).
Qed.

Lemma wav_size_law_witness :
  AudioBuffer.rectangular empty_buffer /\
  exists bytes : list Z,
    audioBufferToWavBlob empty_buffer = Ok (mkBlob bytes "audio/wav") /\
    List.length bytes = (44 + 0 * 2 * 2)%nat /\
    (0%nat = 0%nat -> List.length bytes = 44%nat /\ u32_at bytes 40 = 0).
Proof.
  split; [exact empty_buffer_rectangular |].
  exact (wav_size_law empty_buffer empty_buffer_rectangular).
Defined.

(** The failures the [try] covers: when the decode capability fails,
    whatever the failure, [reverseAudioBuffer] returns [null], and no
    buffer. *)
Lemma reverse_decode_failure
    (decodeAudioData : ArrayBuffer -> result AudioBuffer.t)
    (audioBlob : Blob) (e : exn) :
  decodeAudioData (blob_bytes audioBlob) = Throw e ->
  reverseAudioBuffer decodeAudioData audioBlob = None.
Proof. intros Hdec. unfold reverseAudioBuffer. by rewrite Hdec. Qed.

(** C7 (a defect of the code). [reverseAudioBuffer] reports a failure by
    resolving with [null]: that is its declared result and what its
    [catch] gives for every failure of the decoder.  The audio context,
    though, is fetched on the line before the [try].  When no context is
    kept and none can be built, the call on a recording does not resolve
    with [null]: its promise rejects with the exception of the
    construction, and no context is kept.  With a context at hand, kept
    or built by the call, an input the decoder rejects makes it resolve
    with [null]. *)
Theorem reverse_context_failure_rejects :
  reverseAudioBuffer_promise (Throw TypeError) None (mkBlob [1] "audio/webm")
    = (Throw TypeError, None) /\
  reverseAudioBuffer_promise (Throw TypeError) (Some sample_context)
    (mkBlob [] "audio/webm")
    = (Ok None, Some sample_context) /\
  reverseAudioBuffer_promise (Ok sample_context) None (mkBlob [] "audio/webm")
    = (Ok None, Some sample_context).
Proof. repeat split. Qed.

(** C8. For every sample of a [Float32Array], inside [-1, 1] or not: the
    clamped value is [NaN] (only for a [NaN] sample) or a finite number
    of [-1, 1], a sample below -1 becoming -1 and one above 1 becoming 1,
    the infinities likewise; the number handed to [setInt16] truncates to
    an integer of [-32768, 32767], which is stored as it is, without
    wrap-around; so the stored value lies in [-32768, 32767]. *)
Theorem quantization_bounded (x : number) :
  fits_float32 x = true ->
  (clamp x = S754_nan \/
   is_finite (clamp x) = true /\ (-1 <= number_value (clamp x) <= 1)%Q) /\
  (is_finite x = true ->
     ((number_value x < -1)%Q -> clamp x = of_Z (-1)) /\
     ((1 < number_value x)%Q -> clamp x = of_Z 1)) /\
  clamp (S754_infinity true) = of_Z (-1) /\
  clamp (S754_infinity false) = of_Z 1 /\
  -32768 <= truncate (scale (clamp x)) <= 32767 /\
  pcm16 x = truncate (scale (clamp x)) /\
  -32768 <= pcm16 x <= 32767.
Proof.
  intros Hfit.
  split; [by apply clamp_range |].
  split; [by apply clamp_outside |].
  split; [done |]. split; [done |].
  split; [by apply truncate_scaled_range |].
  split; [by apply pcm16_truncate |].
  apply ToInt16_range.
Qed.

Lemma quantization_bounded_witness :
  let x := of_Z 3 in
  fits_float32 x = true /\
  clamp x = of_Z 1 /\
  pcm16 x = 32767 /\
  -32768 <= truncate (scale (clamp x)) <= 32767.
Proof.
  split; [reflexivity |]. split; [reflexivity |]. split; [reflexivity |].
  exact (proj1 (proj2 (proj2 (proj2 (proj2
    (quantization_bounded (of_Z 3) eq_refl)))))).
Defined.

(** C9. Reversing a channel twice gives back the original samples, for a
    channel of any length (the empty one included). *)
Theorem reversal_involution (channelData : Float32Array) :
  reversedChannelData (reversedChannelData channelData) = channelData.
Proof. rewrite !reversedChannelData_spec. apply reverse_involutive. Qed.

(** C10. A buffer without channels, whatever its sample rate and length, is
    encoded without any check and without failure: the result is a blob of
    exactly 44 bytes whose channel count, byte rate, block align and data
    length fields are all 0. *)
Theorem zero_channel_encoding (buffer : AudioBuffer.t) :
  AudioBuffer.numberOfChannels buffer = 0%nat ->
  exists bytes : list Z,
    audioBufferToWavBlob buffer = Ok (mkBlob bytes "audio/wav") /\
    List.length bytes = 44%nat /\
    u16_at bytes 22 = 0 /\
    u32_at bytes 28 = 0 /\
    u16_at bytes 32 = 0 /\
    u32_at bytes 40 = 0.
Proof.
  intros Hzero.
  assert (Hnil : AudioBuffer.channelData buffer = []).
  { unfold AudioBuffer.numberOfChannels in Hzero. by apply nil_length_inv. }
  assert (Hrect : AudioBuffer.rectangular buffer).
  { unfold AudioBuffer.rectangular. rewrite Hnil. constructor. }
  destruct (encode_closed_form buffer Hrect) as (flat & _ & Hlen & Henc).
  rewrite Hzero, Nat.mul_0_r in Hlen. apply nil_length_inv in Hlen. subst flat.
  rewrite Hzero in Henc.
  exists (wav_header 0 0 (AudioBuffer.sampleRate buffer) ++ []).
  split; [exact Henc |].
  split; [done |].
  unfold u16_at, u32_at. rewrite !bytes_at_header by (simpl; lia).
  split; [done |].
  split; [| done].
  change (le_combine
            (le_bytes 4 (ToUint32 (AudioBuffer.sampleRate buffer * 0 * 2))) = 0).
  by rewrite Z.mul_0_r.
Qed.

Lemma zero_channel_encoding_witness :
  AudioBuffer.numberOfChannels channelless_buffer = 0%nat /\
  exists bytes : list Z,
    audioBufferToWavBlob channelless_buffer = Ok (mkBlob bytes "audio/wav") /\
    List.length bytes = 44%nat /\
    u16_at bytes 22 = 0 /\
    u32_at bytes 28 = 0 /\
    u16_at bytes 32 = 0 /\
    u32_at bytes 40 = 0.
Proof.
  split; [reflexivity |].
  exact (zero_channel_encoding channelless_buffer eq_refl).
Defined.

(** * Further properties *)

(** ** Loops that throw *)

Section LoopsThrow.
Local Open Scope nat_scope.
Context {St : Type}.

Lemma for_range_add (body : nat -> St -> result St) (a b : nat) :
  forall start s,
    for_range start (a + b) body s =
      s' ← for_range start a body s; for_range (start + a) b body s'.
Proof.
  induction a as [|a IH]; intros start s; simpl.
  - by rewrite Nat.add_0_r.
  - destruct (body start s) as [t | e]; simpl; [| done].
    rewrite IH. by replace (S start + a) with (start + S a) by lia.
Qed.

(** A loop whose iterations keep an invariant up to iteration [k], where
    the body throws, throws that exception. *)
Lemma for_range_throw (I : nat -> St -> Prop) (body : nat -> St -> result St)
    (e : exn) (n start k : nat) (s : St) :
  I start s ->
  start <= k < start + n ->
  (forall j t, start <= j < k -> I j t ->
     exists t', body j t = Ok t' /\ I (S j) t') ->
  (forall t, I k t -> body k t = Throw e) ->
  for_range start n body s = Throw e.
Proof.
  intros Hs Hk Hbefore Hthrow.
  replace n with ((k - start) + S (n - S (k - start))) by lia.
  rewrite for_range_add.
  destruct (for_range_inv I body (k - start) start s Hs) as (t & Ht & HI).
  { intros j u Hj. apply Hbefore. lia. }
  rewrite Ht. simpl.
  replace (start + (k - start)) with k in * by lia.
  by rewrite (Hthrow t HI).
Qed.

End LoopsThrow.

(** ** Writes through the view *)

Section ViewWrites.
Local Open Scope nat_scope.

Lemma string_get_lookup (str : string) : forall i : nat,
  String.get i str = list_ascii_of_string str !! i.
Proof.
  induction str as [|c str IH]; intros [|i]; simpl; try done.
Qed.

Lemma length_string_bytes (str : string) :
  length (string_bytes str) = String.length str.
Proof.
  unfold string_bytes. rewrite length_fmap.
  induction str as [|c str IH]; simpl; [done | by rewrite IH].
Qed.

Lemma string_bytes_nil (str : string) :
  String.length str = 0 -> string_bytes str = [].
Proof. by destruct str. Qed.

Lemma charCodeAt_byte (str : string) (i : nat) :
  (0 <= charCodeAt str i < 256)%Z.
Proof.
  unfold charCodeAt. destruct (String.get i str) as [c |]; [| lia].
  pose proof (N_ascii_bounded c) as Hc. lia.
Qed.

Lemma charCodeAt_lookup (str : string) (i : nat) :
  i < String.length str ->
  string_bytes str !! i = Some (charCodeAt str i).
Proof.
  intros Hi. unfold string_bytes, charCodeAt.
  rewrite list_lookup_fmap, <- string_get_lookup.
  destruct (String.get i str) as [c |] eqn:Hget; [done |].
  exfalso. rewrite string_get_lookup in Hget.
  apply lookup_ge_None_1 in Hget.
  pose proof (length_string_bytes str) as Hlen.
  unfold string_bytes in Hlen. rewrite length_fmap in Hlen. lia.
Qed.

(** A character code is written as it is. *)
Lemma setUint8_byte (view : ArrayBuffer) (byteOffset : nat) (value : Z) :
  (0 <= value < 256)%Z ->
  DataView.setUint8 view byteOffset value =
    DataView.SetViewValue view byteOffset [value].
Proof.
  intros Hv. unfold DataView.setUint8, ToUint8. cbn [le_bytes].
  change (2 ^ 8)%Z with 256%Z. by rewrite !(Z.mod_small value 256) by lia.
Qed.

Lemma SetViewValue_out_of_range (view : ArrayBuffer) (byteOffset : nat)
    (rawBytes : list Z) :
  length view < byteOffset + length rawBytes ->
  DataView.SetViewValue view byteOffset rawBytes = Throw RangeError.
Proof.
  intros Hout. unfold DataView.SetViewValue.
  destruct (Nat.leb_spec (byteOffset + length rawBytes) (length view));
    [lia | done].
Qed.

Lemma SetViewValue_at (pre bs rest : list Z) (byteOffset : nat) :
  byteOffset = length pre ->
  length bs <= length rest ->
  DataView.SetViewValue (pre ++ rest) byteOffset bs =
    Ok (pre ++ bs ++ drop (length bs) rest).
Proof. intros ->. apply SetViewValue_middle. Qed.

Lemma SetViewValue_in_range (view : ArrayBuffer) (byteOffset : nat)
    (rawBytes : list Z) :
  byteOffset + length rawBytes <= length view ->
  DataView.SetViewValue view byteOffset rawBytes =
    Ok (take byteOffset view ++ rawBytes ++
        drop (byteOffset + length rawBytes) view).
Proof.
  intros Hin.
  transitivity (DataView.SetViewValue
                  (take byteOffset view ++ drop byteOffset view)
                  (length (take byteOffset view)) rawBytes).
  { rewrite take_drop, length_take. f_equal. lia. }
  rewrite SetViewValue_middle by (rewrite length_drop; lia).
  by rewrite drop_drop.
Qed.

Lemma pcm_payload_app (a b : Float32Array) :
  pcm_payload (a ++ b) = pcm_payload a ++ pcm_payload b.
Proof. unfold pcm_payload. apply bind_app. Qed.

Lemma pcm_payload_snoc (input : Float32Array) (x : number) :
  pcm_payload (input ++ [x]) =
    pcm_payload input ++ le_bytes 2 (pcm16 x mod 2 ^ 16).
Proof.
  rewrite pcm_payload_app. by f_equal.
Qed.

(** X1. [writeString(view, offset, str)] on any view and offset and any
    string of characters with codes below 256 (such as the four tags the
    encoder writes): if the string is empty, or ends within the view, the
    character codes of the string replace the bytes from [offset] on and
    every other byte stays; otherwise, the string reaching past the end
    of the view, the call throws [RangeError]. *)
Theorem writeString_effect (view : ArrayBuffer) (offset : nat) (str : string) :
  writeString view offset str =
    if (String.length str =? 0) || (offset + String.length str <=? length view)
    then Ok (take offset view ++ string_bytes str ++
             drop (offset + String.length str) view)
    else Throw RangeError.
Proof.
  unfold writeString.
  destruct (Nat.leb_spec (offset + String.length str) (length view))
    as [Hin | Hout].
  - rewrite orb_true_r.
    match goal with |- for_range 0 _ ?body _ = _ =>
      destruct (for_range_inv
        (fun i (v : ArrayBuffer) =>
           v = take offset view ++ take i (string_bytes str) ++
               drop (offset + i) view)
        body (String.length str) 0 view) as (out & Hrun & Hout)
    end.
    + rewrite Nat.add_0_r, take_0. simpl. by rewrite take_drop.
    + intros i v Hi ->. simpl in Hi.
      pose proof (charCodeAt_lookup str i (proj2 Hi)) as Hc.
      rewrite setUint8_byte by apply charCodeAt_byte.
      rewrite app_assoc.
      rewrite SetViewValue_at;
        [| rewrite length_app, !length_take, length_string_bytes; lia
         | rewrite length_drop; simpl; lia].
      eexists. split; [reflexivity |].
      rewrite (take_S_r _ _ _ Hc), drop_drop, <- !app_assoc. simpl.
      by replace (offset + i + 1) with (offset + S i) by lia.
    + rewrite Hrun, Hout. simpl. do 3 f_equal.
      apply take_ge. rewrite length_string_bytes. lia.
  - destruct (Nat.eqb_spec (String.length str) 0) as [Hz | Hnz]; simpl.
    + rewrite Hz. simpl. f_equal.
      rewrite take_ge, drop_ge, (string_bytes_nil str Hz) by lia.
      by rewrite app_nil_r.
    + apply (for_range_throw (fun _ (v : ArrayBuffer) => length v = length view)
               _ _ _ _ (length view - offset)); [done | lia | |].
      * intros j v Hj Hv.
        rewrite setUint8_byte by apply charCodeAt_byte.
        rewrite SetViewValue_in_range by (simpl; lia).
        eexists. split; [reflexivity |].
        rewrite !length_app, length_take, length_drop. simpl. lia.
      * intros v Hv.
        rewrite setUint8_byte by apply charCodeAt_byte.
        apply SetViewValue_out_of_range. simpl. lia.
Qed.

(** X2. [floatTo16BitPCM(output, offset, input)] on any view, offset and
    sample array: if there is no sample, or the two bytes of every sample
    fit in the view from [offset] on, the payload of the samples replaces
    the bytes from [offset] on and every other byte stays; otherwise the
    call throws [RangeError]. *)
Theorem floatTo16BitPCM_effect (output : ArrayBuffer) (offset : nat)
    (input : Float32Array) :
  floatTo16BitPCM output offset input =
    if (length input =? 0) || (offset + 2 * length input <=? length output)
    then Ok (take offset output ++ pcm_payload input ++
             drop (offset + 2 * length input) output)
    else Throw RangeError.
Proof.
  unfold floatTo16BitPCM.
  destruct (Nat.leb_spec (offset + 2 * length input) (length output))
    as [Hin | Hout].
  - rewrite orb_true_r.
    match goal with |- context [for_range 0 _ ?body _] =>
      destruct (for_range_inv
        (fun i (st : ArrayBuffer * nat) =>
           st.2 = offset + 2 * i /\
           st.1 = take offset output ++ pcm_payload (take i input) ++
                  drop (offset + 2 * i) output)
        body (length input) 0 (output, offset))
        as ([out off] & Hrun & Hoff & Hout)
    end.
    + cbn [fst snd]. split; [lia |].
      rewrite Nat.mul_0_r, Nat.add_0_r, take_0. simpl. by rewrite take_drop.
    + intros i [v o] Hi [Ho Hv]. cbn [fst snd] in Ho, Hv. subst.
      destruct (lookup_lt_is_Some_2 input i) as [x Hx]; [lia |].
      rewrite (get_lookup _ _ _ Hx). cbv zeta.
      unfold DataView.setInt16. fold (pcm16 x).
      rewrite app_assoc.
      rewrite SetViewValue_at;
        [| rewrite length_app, length_pcm_payload, !length_take; lia
         | rewrite length_le_bytes, length_drop; lia].
      eexists. split; [reflexivity |]. cbn [fst snd]. split; [lia |].
      rewrite (take_S_r _ _ _ Hx), pcm_payload_snoc.
      rewrite length_le_bytes, drop_drop, <- !app_assoc.
      by replace (offset + 2 * S i) with (offset + 2 * i + 2) by lia.
    + rewrite Hrun. cbn [fst snd] in *. subst. simpl. do 3 f_equal.
      by rewrite take_ge by lia.
  - destruct (Nat.eqb_spec (length input) 0) as [Hz | Hnz]; simpl.
    + apply length_zero_iff_nil in Hz. subst input. simpl in *. f_equal.
      by rewrite take_ge, drop_ge, app_nil_r by lia.
    + match goal with |- context [for_range 0 _ ?body _] =>
        rewrite (for_range_throw
          (fun i (st : ArrayBuffer * nat) =>
             st.2 = offset + 2 * i /\ length st.1 = length output)
          body RangeError (length input) 0 ((length output - offset) / 2)
          (output, offset))
      end; [done | cbn [fst snd]; split; [lia | done] | | |].
      * split; [lia |].
        apply Nat.Div0.div_lt_upper_bound. lia.
      * intros j [v o] Hj [Ho Hv]. cbn [fst snd] in Ho, Hv. subst o.
        assert (2 * j + 2 <= length output - offset).
        { assert (S j <= (length output - offset) / 2) as Hle by lia.
          pose proof (Nat.Div0.mul_div_le (length output - offset) 2). lia. }
        unfold DataView.setInt16.
        rewrite SetViewValue_in_range by (rewrite length_le_bytes; lia).
        eexists. split; [reflexivity |]. cbn [fst snd]. split; [lia |].
        rewrite !length_app, length_take, length_drop, length_le_bytes. lia.
      * intros [v o] [Ho Hv]. cbn [fst snd] in Ho, Hv. subst o.
        unfold DataView.setInt16.
        rewrite SetViewValue_out_of_range; [done |].
        rewrite length_le_bytes, Hv.
        pose proof (Nat.div_mod_eq (length output - offset) 2).
        pose proof (Nat.mod_upper_bound (length output - offset) 2). lia.
Qed.

End ViewWrites.

(** ** Interleaving and encoding any buffer *)

Section Frames.
Local Open Scope nat_scope.
Variable chans : list Float32Array.

Lemma length_frame (i : nat) : length (frame chans i) = length chans.
Proof. unfold frame. apply length_fmap. Qed.

Lemma frames_app (a b : nat) :
  frames chans (a + b) = frames chans a ++ (seq a b ≫= frame chans).
Proof. unfold frames. by rewrite seq_app, bind_app. Qed.

Lemma frames_S (len : nat) :
  frames chans (S len) = frames chans len ++ frame chans len.
Proof.
  replace (S len) with (len + 1) by lia. rewrite frames_app. f_equal.
  simpl. apply app_nil_r.
Qed.

Lemma length_frames (len : nat) :
  length (frames chans len) = len * length chans.
Proof.
  induction len as [|len IH]; [done |].
  rewrite frames_S, length_app, IH, length_frame. lia.
Qed.

Lemma frames_lookup (len i j : nat) (c : Float32Array) :
  i < len -> chans !! j = Some c ->
  frames chans len !! (i * length chans + j) = Some (TypedArray.get c i).
Proof.
  intros Hi Hc. pose proof (lookup_lt_Some _ _ _ Hc) as Hj.
  replace len with (i + S (len - S i)) by lia.
  rewrite frames_app. rewrite lookup_app_r by (rewrite length_frames; lia).
  rewrite length_frames.
  replace (i * length chans + j - i * length chans) with j by lia.
  simpl. rewrite lookup_app_l by (rewrite length_frame; lia).
  unfold frame. by rewrite list_lookup_fmap, Hc.
Qed.

Lemma frames_split (len i : nat) :
  i < len ->
  frames chans len =
    frames chans i ++ frame chans i ++
    (seq (S i) (len - S i) ≫= frame chans).
Proof.
  intros Hi. replace len with (i + S (len - S i)) at 1 by lia.
  by rewrite frames_app.
Qed.

End Frames.

Section AnyBuffer.
Local Open Scope nat_scope.

(** [interleave] in closed form, on every buffer. *)
Lemma interleave_frames (buffer : AudioBuffer.t) :
  interleave buffer =
    Ok (frames (AudioBuffer.channelData buffer) (AudioBuffer.length buffer)).
Proof.
  destruct (interleave_outer buffer) as (flat & Hrun & Hlen & Hfill).
  unfold interleave. rewrite interleave_channels. simpl. rewrite Hrun. simpl.
  f_equal. apply list_eq. intros k.
  set (chans := AudioBuffer.channelData buffer) in *.
  set (len := AudioBuffer.length buffer) in *.
  unfold AudioBuffer.numberOfChannels in *. fold chans in Hlen, Hfill.
  destruct (decide (k < len * length chans)) as [Hk | Hk].
  - destruct (Hfill k Hk) as (c & Hc & Hflat).
    assert (Hnoc : length chans <> 0) by lia.
    rewrite Hflat. symmetry.
    replace k with (k / length chans * length chans + k mod length chans) at 1
      by (pose proof (Nat.div_mod_eq k (length chans)); lia).
    apply frames_lookup; [| done].
    apply Nat.Div0.div_lt_upper_bound. lia.
  - rewrite !lookup_ge_None_2; [done | rewrite length_frames; lia | lia].
Qed.

(** The encoder in closed form, on every buffer. *)
Lemma audioBufferToWavBlob_frames (buffer : AudioBuffer.t) :
  let chans := AudioBuffer.channelData buffer in
  let len := AudioBuffer.length buffer in
  audioBufferToWavBlob buffer =
    Ok (mkBlob
          (wav_header (Z.of_nat (len * length chans) * 2)
             (Z.of_nat (length chans)) (AudioBuffer.sampleRate buffer)
           ++ pcm_payload (frames chans len))
          "audio/wav").
Proof.
  intros chans len.
  pose proof (audioBufferToWavBlob_spec buffer _ (interleave_frames buffer))
    as Henc.
  by rewrite length_frames in Henc.
Qed.

Lemma audioBufferToWavBlob_returns (buffer : AudioBuffer.t) :
  exists bytes : list Z,
    audioBufferToWavBlob buffer = Ok (mkBlob bytes "audio/wav").
Proof. eexists. apply audioBufferToWavBlob_frames. Qed.

Lemma length_wav_header (dl nc sr : Z) : length (wav_header dl nc sr) = 44.
Proof. reflexivity. Qed.

(** X3. [interleave] returns for every buffer, also one whose channel
    arrays are shorter or longer than its [length]: the result is the
    frames [0 .. length - 1] one after the other, each holding one sample
    per channel in channel order; it has [length * numberOfChannels]
    elements, and element [i * numberOfChannels + j] is sample [i] of
    channel [j], or [NaN] where that channel has no sample [i]. *)
Theorem interleave_total (buffer : AudioBuffer.t) :
  exists flat : Float32Array,
    interleave buffer = Ok flat /\
    flat = frames (AudioBuffer.channelData buffer) (AudioBuffer.length buffer) /\
    length flat =
      AudioBuffer.length buffer * AudioBuffer.numberOfChannels buffer /\
    forall (i j : nat) (c : Float32Array),
      i < AudioBuffer.length buffer ->
      AudioBuffer.channelData buffer !! j = Some c ->
      flat !! (i * AudioBuffer.numberOfChannels buffer + j) =
        Some (default S754_nan (c !! i)).
Proof.
  eexists. split; [apply interleave_frames |]. split; [done |].
  split; [apply length_frames |].
  intros i j c Hi Hc. by apply frames_lookup.
Qed.

(** X4. [audioBufferToWavBlob] never throws: for every buffer, also one
    without channels or frames or with channel arrays that do not match
    its [length], it returns a blob of type audio/wav of
    [44 + 2 * length * numberOfChannels] bytes, each in [0, 256); the two
    bytes at [44 + 2 * (i * numberOfChannels + j)] hold the 16-bit value
    of sample [i] of channel [j], and 0 where that channel has no sample
    [i]. *)
Theorem audioBufferToWavBlob_total (buffer : AudioBuffer.t) :
  exists bytes : list Z,
    audioBufferToWavBlob buffer = Ok (mkBlob bytes "audio/wav") /\
    length bytes =
      44 + 2 * (AudioBuffer.length buffer * AudioBuffer.numberOfChannels buffer) /\
    Forall (fun b => (0 <= b < 256)%Z) bytes /\
    forall (i j : nat) (c : Float32Array),
      i < AudioBuffer.length buffer ->
      AudioBuffer.channelData buffer !! j = Some c ->
      i16_at bytes (44 + 2 * (i * AudioBuffer.numberOfChannels buffer + j)) =
        match c !! i with
        | Some x => pcm16 x
        | None => 0%Z
        end.
Proof.
  eexists. split; [apply audioBufferToWavBlob_frames |].
  split.
  { rewrite length_app, length_wav_header, length_pcm_payload, length_frames.
    done. }
  split.
  { apply Forall_app. split;
      [apply wav_header_are_bytes | apply pcm_payload_are_bytes]. }
  intros i j c Hi Hc.
  match goal with |- i16_at (?h ++ _) _ = _ =>
    change 44 with (length h)
  end.
  rewrite (i16_at_pcm_payload _ _ _ _ (frames_lookup _ _ _ _ _ Hi Hc)).
  unfold TypedArray.get. by destruct (c !! i).
Qed.

End AnyBuffer.

Section WavSizes.

Lemma ToUint32_id (v : Z) : 0 <= v -> (ToUint32 v = v <-> v < 2 ^ 32).
Proof.
  intros Hv. unfold ToUint32. split.
  - intros <-. apply Z.mod_pos_bound. lia.
  - intros Hlt. apply Z.mod_small. lia.
Qed.

(** X17. The sizes a file states against the sizes it has, for every
    buffer, whatever its sample rate: the RIFF chunk size at byte 4 is
    the length of the file less 8, and the data chunk size at byte 40 the
    length less 44, exactly when that number is below 2^32 (beyond, the
    field holds it modulo 2^32); with fewer than 2^15 channels the block
    align at byte 32 is twice the number of channels and the payload is
    [length] blocks of it. *)
Theorem wav_sizes_consistent (buffer : AudioBuffer.t) :
  exists bytes : list Z,
    audioBufferToWavBlob buffer = Ok (mkBlob bytes "audio/wav") /\
    (u32_at bytes 4 = Z.of_nat (length bytes) - 8 <->
       Z.of_nat (length bytes) - 8 < 2 ^ 32) /\
    (u32_at bytes 40 = Z.of_nat (length bytes) - 44 <->
       Z.of_nat (length bytes) - 44 < 2 ^ 32) /\
    (Z.of_nat (AudioBuffer.numberOfChannels buffer) < 2 ^ 15 ->
       u16_at bytes 32 = 2 * Z.of_nat (AudioBuffer.numberOfChannels buffer) /\
       Z.of_nat (length bytes) - 44 =
         Z.of_nat (AudioBuffer.length buffer) * u16_at bytes 32).
Proof.
  pose proof (audioBufferToWavBlob_frames buffer) as Henc. cbv zeta in Henc.
  set (chans := AudioBuffer.channelData buffer) in *.
  set (len := AudioBuffer.length buffer) in *.
  set (sr := AudioBuffer.sampleRate buffer) in *.
  unfold AudioBuffer.numberOfChannels. fold chans.
  set (noc := length chans) in *.
  set (dl := Z.of_nat (len * noc) * 2) in *.
  set (header := wav_header dl (Z.of_nat noc) sr) in *.
  eexists. split; [exact Henc |].
  assert (Hlen : Z.of_nat (length (header ++ pcm_payload (frames chans len)))
                 = 44 + dl).
  { rewrite length_app, length_pcm_payload, length_frames.
    unfold header. rewrite length_wav_header. fold noc. unfold dl. lia. }
  rewrite Hlen.
  assert (Hfields :
    u32_at (header ++ pcm_payload (frames chans len)) 4 = ToUint32 (36 + dl) /\
    u32_at (header ++ pcm_payload (frames chans len)) 40 = ToUint32 dl /\
    u16_at (header ++ pcm_payload (frames chans len)) 32
      = ToUint16 (Z.of_nat noc * 2)).
  { unfold u32_at, u16_at. rewrite !bytes_at_header by (simpl; lia).
    repeat split; first [ apply u32_le_bytes | apply u16_le_bytes ]. }
  destruct Hfields as (H4 & H40 & H32).
  rewrite H4, H40, H32.
  split.
  { replace (44 + dl - 8) with (36 + dl) by lia.
    apply ToUint32_id. unfold dl. lia. }
  split.
  { replace (44 + dl - 44) with dl by lia.
    apply ToUint32_id. unfold dl. lia. }
  intros Hnoc. rewrite ToUint16_small by lia. split; [lia |]. unfold dl. lia.
Qed.

End WavSizes.

(** ** The order the quantiser keeps *)

Section QuantiserOrder.

(** The stored integer is the exact scaled value truncated toward zero. *)
Lemma pcm16_truncation (x : number) :
  fits_float32 x = true -> is_finite x = true ->
  let y := spec_scale (spec_clamp (number_value x)) in
  let v := pcm16 x in
  ((0 <= y)%Q -> (inject_Z v <= y)%Q /\ (y < inject_Z (v + 1))%Q) /\
  ((y <= 0)%Q -> (inject_Z (v - 1) < y)%Q /\ (y <= inject_Z v)%Q).
Proof.
  intros Hfit Hfin y v.
  destruct (scale_clamp_exact x Hfit Hfin) as [_ Hexact]. fold y in Hexact.
  pose proof (truncate_toward_zero (scale (clamp x))) as [Hpos Hneg].
  unfold v. rewrite (pcm16_truncate x Hfit).
  split; intros Hy; rewrite <- Hexact in *; auto.
Qed.

Lemma spec_scale_clamp_mono (p q : Q) :
  (p <= q)%Q ->
  (spec_scale (spec_clamp p) <= spec_scale (spec_clamp q))%Q.
Proof.
  intros Hpq. destruct p as [a b], q as [c d].
  unfold spec_scale, spec_clamp.
  repeat match goal with
         | |- context [Qlt_le_dec ?u ?v] => destruct (Qlt_le_dec u v)
         end;
    unfold Qle, Qlt in *; cbn [Qnum Qden Qmult inject_Z Qopp] in *; nia.
Qed.

(** Truncation toward zero keeps the order. *)
Lemma truncation_mono (y1 y2 : Q) (v1 v2 : Z) :
  (y1 <= y2)%Q ->
  ((0 <= y1)%Q -> (inject_Z v1 <= y1)%Q /\ (y1 < inject_Z (v1 + 1))%Q) ->
  ((y1 <= 0)%Q -> (inject_Z (v1 - 1) < y1)%Q /\ (y1 <= inject_Z v1)%Q) ->
  ((0 <= y2)%Q -> (inject_Z v2 <= y2)%Q /\ (y2 < inject_Z (v2 + 1))%Q) ->
  ((y2 <= 0)%Q -> (inject_Z (v2 - 1) < y2)%Q /\ (y2 <= inject_Z v2)%Q) ->
  v1 <= v2.
Proof.
  intros Hle Hp1 Hn1 Hp2 Hn2.
  apply Z.lt_succ_r. unfold Z.succ. rewrite Zlt_Qlt.
  destruct (Qlt_le_dec y1 0) as [Hy1 | Hy1];
    destruct (Qlt_le_dec y2 0) as [Hy2 | Hy2].
  - destruct (Hn1 (Qlt_le_weak _ _ Hy1)) as [H1 _].
    destruct (Hn2 (Qlt_le_weak _ _ Hy2)) as [_ H2].
    assert (v1 - 1 < v2) as Hv.
    { rewrite Zlt_Qlt. apply Qlt_le_trans with y2; [| done].
      by apply Qlt_le_trans with y1. }
    rewrite <- Zlt_Qlt. lia.
  - destruct (Hn1 (Qlt_le_weak _ _ Hy1)) as [H1 _].
    destruct (Hp2 Hy2) as [_ H2].
    assert (v1 - 1 < 0) as Hv1.
    { rewrite Zlt_Qlt. by apply Qlt_trans with y1. }
    assert (0 < v2 + 1) as Hv2.
    { rewrite Zlt_Qlt. by apply Qle_lt_trans with y2. }
    rewrite <- Zlt_Qlt. lia.
  - exfalso. apply (Qlt_not_le _ _ Hy2). by apply Qle_trans with y1.
  - destruct (Hp1 Hy1) as [H1 _]. destruct (Hp2 Hy2) as [_ H2].
    apply Qle_lt_trans with y2; [| done].
    by apply Qle_trans with y1.
Qed.

(** Where truncation of the scaled clamped value gives full scale, and
    where it gives 0. *)
Lemma truncation_levels (q : Q) (v : Z) :
  let y := spec_scale (spec_clamp q) in
  ((0 <= y)%Q -> (inject_Z v <= y)%Q /\ (y < inject_Z (v + 1))%Q) ->
  ((y <= 0)%Q -> (inject_Z (v - 1) < y)%Q /\ (y <= inject_Z v)%Q) ->
  (v = 32767 <-> (1 <= q)%Q) /\
  (v = -32768 <-> (q <= -1)%Q) /\
  (v = 0 <-> (-1 # 32768 < q)%Q /\ (q < 1 # 32767)%Q).
Proof.
  destruct q as [a b]. unfold spec_scale, spec_clamp. cbv zeta.
  repeat match goal with
         | |- context [Qlt_le_dec ?u ?v] => destruct (Qlt_le_dec u v)
         end;
    unfold Qle, Qlt in *; cbn [Qnum Qden Qmult inject_Z Qopp] in *;
    intros Hp Hn;
    (destruct (Z.le_gt_cases 0 a) as [Ha | Ha];
     [destruct Hp as [? ?]; [nia |] | destruct Hn as [? ?]; [nia |]]);
    repeat split; intros; try nia.
Qed.

(** X5. The quantiser keeps the order of the samples: of two finite
    samples of a [Float32Array], the one with the smaller value is stored
    as the smaller 16-bit integer, or as the same one. *)
Theorem pcm16_monotone (x y : number) :
  fits_float32 x = true -> is_finite x = true ->
  fits_float32 y = true -> is_finite y = true ->
  (number_value x <= number_value y)%Q ->
  pcm16 x <= pcm16 y.
Proof.
  intros Hfx Hnx Hfy Hny Hle.
  destruct (pcm16_truncation x Hfx Hnx) as [Hp1 Hn1].
  destruct (pcm16_truncation y Hfy Hny) as [Hp2 Hn2].
  apply (truncation_mono _ _ _ _ (spec_scale_clamp_mono _ _ Hle));
    assumption.
Qed.

Lemma pcm16_monotone_witness :
  (number_value (dyadic (-1) (-2)) <= number_value (dyadic 1 (-1)))%Q /\
  pcm16 (dyadic (-1) (-2)) <= pcm16 (dyadic 1 (-1)).
Proof.
  split; [by vm_compute |].
  apply (pcm16_monotone (dyadic (-1) (-2)) (dyadic 1 (-1)));
    [reflexivity | reflexivity | reflexivity | reflexivity | by vm_compute].
Defined.

(** X6. Where the quantiser saturates and where it is silent, for a
    finite sample of a [Float32Array]: it stores 32767 exactly for the
    values from 1 up, -32768 exactly for the values from -1 down, and 0
    exactly for the values strictly between -1/32768 and 1/32767. *)
Theorem pcm16_levels (x : number) :
  fits_float32 x = true -> is_finite x = true ->
  (pcm16 x = 32767 <-> (1 <= number_value x)%Q) /\
  (pcm16 x = -32768 <-> (number_value x <= -1)%Q) /\
  (pcm16 x = 0 <->
     (-1 # 32768 < number_value x)%Q /\ (number_value x < 1 # 32767)%Q).
Proof.
  intros Hfit Hfin.
  destruct (pcm16_truncation x Hfit Hfin) as [Hp Hn].
  by apply truncation_levels.
Qed.

Lemma pcm16_levels_witness :
  (pcm16 (of_Z 3) = 32767 <-> (1 <= number_value (of_Z 3))%Q) /\
  (pcm16 (of_Z 3) = -32768 <-> (number_value (of_Z 3) <= -1)%Q) /\
  (pcm16 (of_Z 3) = 0 <->
     (-1 # 32768 < number_value (of_Z 3))%Q /\
     (number_value (of_Z 3) < 1 # 32767)%Q).
Proof. exact (pcm16_levels (of_Z 3) eq_refl eq_refl). Defined.

End QuantiserOrder.

(** ** The reverser on any decoded buffer *)

Section ReverserTotal.
Local Open Scope nat_scope.
Variable decodeAudioData : ArrayBuffer -> result AudioBuffer.t.



End ReverserTotal.

Section ReverseTwice.
Local Open Scope nat_scope.

Lemma fmap_reverse_involutive (chans : list Float32Array) :
  reverse <$> (reverse <$> chans) = chans.
Proof.
  rewrite <- list_fmap_compose. rewrite <- (list_fmap_id chans) at 2.
  apply list_fmap_ext. intros _ c _. simpl. apply reverse_involutive.
Qed.

(** X8. Reversing twice gives the recording back: when an input decodes
    to a valid buffer and [reverseAudioBuffer] returns [out] for it, then
    [reverseAudioBuffer] on any input that decodes to [out] returns the
    first decoded buffer, sample for sample, with its rate and length. *)
Theorem reverse_twice
    (decode1 decode2 : ArrayBuffer -> result AudioBuffer.t)
    (blob1 blob2 : Blob) (buf out : AudioBuffer.t) :
  decode1 (blob_bytes blob1) = Ok buf ->
  AudioBuffer.valid buf ->
  reverseAudioBuffer decode1 blob1 = Some out ->
  decode2 (blob_bytes blob2) = Ok out ->
  reverseAudioBuffer decode2 blob2 = Some buf.
Proof.
  intros Hdec1 Hvalid Hrev1 Hdec2.
  rewrite (reverseAudioBuffer_decoded _ _ _ Hdec1 Hvalid) in Hrev1.
  injection Hrev1 as <-.
  rewrite (reverseAudioBuffer_decoded _ _ _ Hdec2).
  - simpl. rewrite fmap_reverse_involutive. by destruct buf.
  - destruct Hvalid as (Hrect & Hn & Hl & Hs).
    unfold AudioBuffer.valid, AudioBuffer.rectangular,
      AudioBuffer.numberOfChannels in *. simpl.
    rewrite length_fmap. repeat split; try done.
    apply Forall_fmap. eapply Forall_impl; [exact Hrect |].
    intros c Hc. simpl in *. by rewrite length_reverse.
Qed.

Lemma reverse_twice_witness :
  reverseAudioBuffer
    (fun _ => Ok (AudioBuffer.mk 44100 2
                    [ [of_Z (-1); of_Z 1]; [of_Z 0; dyadic 1 (-1)] ]))
    (mkBlob [] "audio/webm")
  = Some example_buffer.
Proof.
  exact (reverse_twice sample_decoder _ (mkBlob [1%Z] "audio/webm") _
           example_buffer _ eq_refl example_buffer_valid eq_refl eq_refl).
Defined.

Lemma bytes_at_middle (a b c : list Z) (offset n : nat) :
  offset = length a -> n = length b ->
  bytes_at (a ++ b ++ c) offset n = b.
Proof.
  intros -> ->. unfold bytes_at.
  by rewrite drop_app_length, take_app_length.
Qed.

(** The bytes of frame [i] in an encoded file. *)
Lemma bytes_at_frame (h : list Z) (chans : list Float32Array)
    (len i offset n : nat) :
  i < len -> n = 2 * length chans -> offset = length h + i * n ->
  bytes_at (h ++ pcm_payload (frames chans len)) offset n =
    pcm_payload (frame chans i).
Proof.
  intros Hi -> ->. rewrite bytes_at_payload, (frames_split chans len i Hi).
  rewrite !pcm_payload_app. apply bytes_at_middle.
  - rewrite length_pcm_payload, length_frames. lia.
  - by rewrite length_pcm_payload, length_frame.
Qed.

Lemma frame_reverse (chans : list Float32Array) (len i : nat) :
  Forall (fun c => length c = len) chans -> i < len ->
  frame (reverse <$> chans) i = frame chans (len - 1 - i).
Proof.
  intros Hrect Hi. unfold frame. rewrite <- list_fmap_compose.
  apply Forall_fmap_ext_1. eapply Forall_impl; [exact Hrect |].
  intros c Hc. simpl in *. unfold TypedArray.get.
  rewrite reverse_lookup by lia. do 2 f_equal. lia.
Qed.

(** X9. The file of the reversed recording against the file of the
    recording, for an input that decodes to a valid buffer: both
    encodings return, the two files have the same length and the same 44
    header bytes, and the bytes of frame [i] of the reversed file are the
    bytes of frame [length - 1 - i] of the other: the frames are in
    reverse order, the channels within a frame are not. *)
Theorem reversed_wav_frames
    (decodeAudioData : ArrayBuffer -> result AudioBuffer.t)
    (audioBlob : Blob) (buf : AudioBuffer.t) :
  decodeAudioData (blob_bytes audioBlob) = Ok buf ->
  AudioBuffer.valid buf ->
  exists (out : AudioBuffer.t) (bytes rbytes : list Z),
    reverseAudioBuffer decodeAudioData audioBlob = Some out /\
    audioBufferToWavBlob buf = Ok (mkBlob bytes "audio/wav") /\
    audioBufferToWavBlob out = Ok (mkBlob rbytes "audio/wav") /\
    length rbytes = length bytes /\
    bytes_at rbytes 0 44 = bytes_at bytes 0 44 /\
    forall i : nat, i < AudioBuffer.length buf ->
      bytes_at rbytes
        (44 + i * (2 * AudioBuffer.numberOfChannels buf))
        (2 * AudioBuffer.numberOfChannels buf) =
      bytes_at bytes
        (44 + (AudioBuffer.length buf - 1 - i)
              * (2 * AudioBuffer.numberOfChannels buf))
        (2 * AudioBuffer.numberOfChannels buf).
Proof.
  intros Hdec Hvalid.
  pose proof (reverseAudioBuffer_decoded _ _ _ Hdec Hvalid) as Hrev.
  destruct Hvalid as (Hrect & _).
  set (chans := AudioBuffer.channelData buf) in *.
  set (len := AudioBuffer.length buf) in *.
  set (sr := AudioBuffer.sampleRate buf) in *.
  pose proof (audioBufferToWavBlob_frames buf) as Henc.
  pose proof (audioBufferToWavBlob_frames
                (AudioBuffer.mk sr len (reverse <$> chans))) as Hrenc.
  cbv zeta in Henc, Hrenc.
  cbn [AudioBuffer.channelData AudioBuffer.length AudioBuffer.sampleRate]
    in Hrenc.
  rewrite length_fmap in Hrenc. fold chans len sr in Henc.
  unfold AudioBuffer.numberOfChannels. fold chans.
  eexists _, _, _. split; [exact Hrev |].
  split; [exact Henc |]. split; [exact Hrenc |].
  split.
  { by rewrite !length_app, !length_pcm_payload, !length_frames, length_fmap. }
  split.
  { by rewrite !bytes_at_header by (rewrite length_wav_header; lia). }
  intros i Hi.
  rewrite (bytes_at_frame _ (reverse <$> chans) len i);
    [| done | by rewrite length_fmap | by rewrite length_wav_header].
  rewrite (bytes_at_frame _ chans len (len - 1 - i));
    [| lia | done | by rewrite length_wav_header].
  f_equal. by apply frame_reverse.
Qed.

Lemma reversed_wav_frames_witness :
  exists (out : AudioBuffer.t) (bytes rbytes : list Z),
    reverseAudioBuffer sample_decoder (mkBlob [1%Z] "audio/webm") = Some out /\
    audioBufferToWavBlob example_buffer = Ok (mkBlob bytes "audio/wav") /\
    audioBufferToWavBlob out = Ok (mkBlob rbytes "audio/wav") /\
    length rbytes = length bytes /\
    bytes_at rbytes 0 44 = bytes_at bytes 0 44 /\
    forall i : nat, i < 2 ->
      bytes_at rbytes (44 + i * 4) 4 = bytes_at bytes (44 + (2 - 1 - i) * 4) 4.
Proof.
  exact (reversed_wav_frames sample_decoder (mkBlob [1%Z] "audio/webm")
           example_buffer eq_refl example_buffer_valid).
Defined.

End ReverseTwice.

(** ** The one audio context *)

Section AudioContextProps.
Local Open Scope nat_scope.

(** Once a context is kept, every call returns it. *)
Lemma getAudioContext_calls_kept (context : AudioContext.t) :
  forall (news : list (result AudioContext.t)) (i : nat),
    i < length news ->
    getAudioContext_calls news (Some context) !! i = Some (Ok context).
Proof.
  induction news as [|new news IH]; intros i Hi; simpl in *; [lia |].
  destruct i as [|i]; [done |]. apply IH. lia.
Qed.

Lemma length_getAudioContext_calls (news : list (result AudioContext.t)) :
  forall audioContext,
    length (getAudioContext_calls news audioContext) = length news.
Proof.
  induction news as [|new news IH]; intros g; [done |].
  simpl. destruct (getAudioContext new g) as [r g']. simpl. by rewrite IH.
Qed.

(** X10. [getAudioContext] builds one context and keeps it: in any run of
    calls starting with no context, a call that returns a context returns
    the one of the first construction that succeeded; every call before
    that construction threw what its own construction threw, and every
    call from it on returns that same context, whatever a new
    construction would give. *)
Theorem getAudioContext_singleton (news : list (result AudioContext.t))
    (i : nat) (context : AudioContext.t) :
  getAudioContext_calls news None !! i = Some (Ok context) ->
  exists k : nat,
    k <= i /\ news !! k = Some (Ok context) /\
    (forall j : nat, j < k ->
       exists e, news !! j = Some (Throw e) /\
                 getAudioContext_calls news None !! j = Some (Throw e)) /\
    (forall j : nat, k <= j < length news ->
       getAudioContext_calls news None !! j = Some (Ok context)).
Proof.
  revert i. induction news as [|new news IH]; intros i Hi; [done |].
  simpl in Hi. destruct new as [c | e]; simpl in Hi.
  - exists 0.
    assert (Hc : c = context).
    { destruct i as [|i]; simpl in Hi; [by injection Hi |].
      rewrite getAudioContext_calls_kept in Hi; [by injection Hi |].
      apply lookup_lt_Some in Hi.
      by rewrite length_getAudioContext_calls in Hi. }
    subst c. split; [lia |]. split; [done |]. split; [intros j Hj; lia |].
    intros [|j] Hj; simpl; [done |].
    apply getAudioContext_calls_kept. simpl in Hj. lia.
  - destruct i as [|i]; [done |]. simpl in Hi.
    destruct (IH i Hi) as (k & Hk & Hnew & Hbefore & Hafter).
    exists (S k). split; [lia |]. split; [done |]. split.
    + intros [|j] Hj; simpl; [by exists e |]. apply Hbefore. lia.
    + intros [|j] Hj; [lia |]. simpl. apply Hafter. simpl in Hj. lia.
Qed.

Lemma getAudioContext_singleton_witness :
  exists k : nat,
    k <= 2 /\
    [Throw TypeError; Ok sample_context; Throw NotSupportedError;
     Ok (AudioContext.mk (fun _ => Throw EncodingError))] !! k
      = Some (Ok sample_context).
Proof.
  destruct (getAudioContext_singleton
              [Throw TypeError; Ok sample_context; Throw NotSupportedError;
               Ok (AudioContext.mk (fun _ => Throw EncodingError))]
              2 sample_context eq_refl) as (k & Hk & Hnew & _).
  exists k. by split.
Defined.

End AudioContextProps.

(** ** The application *)

Section AppProps.
Import App.
Variable new_AudioContext : result AudioContext.t.
Variable createObjectURL : Blob -> string.

(** [processAndReverseAudio] when a context is at hand. *)
Lemma processAndReverseAudio_with_context (blob : Blob) (target : Target)
    (s : State) (context : AudioContext.t) :
  getAudioContext new_AudioContext (audioContext s) = (Ok context, Some context) ->
  App.processAndReverseAudio new_AudioContext createObjectURL blob target s =
    match reverseAudioBuffer (AudioContext.decodeAudioData context) blob with
    | Some reversedBuffer =>
        match audioBufferToWavBlob reversedBuffer with
        | Ok wavBlob =>
            match target with
            | original =>
                mk PLAYING_REVERSED_ORIGINAL (originalAudioBlob s)
                  (Some (createObjectURL wavBlob))
                  (reversedImitationAudioUrl s) (error s) (Some context)
            | imitation =>
                mk PLAYING_REVERSED_IMITATION (originalAudioBlob s)
                  (reversedOriginalAudioUrl s)
                  (Some (createObjectURL wavBlob)) (error s) (Some context)
            end
        | Throw _ =>
            mk match target with
               | original => PROCESSING_ORIGINAL
               | imitation => PROCESSING_IMITATION
               end
              (originalAudioBlob s) (reversedOriginalAudioUrl s)
              (reversedImitationAudioUrl s) (error s) (Some context)
        end
    | None =>
        mk IDLE (originalAudioBlob s) (reversedOriginalAudioUrl s)
          (reversedImitationAudioUrl s)
          (Some "Failed to process audio. Please try again."%string)
          (Some context)
    end.
Proof.
  intros Hctx. unfold App.processAndReverseAudio, reverseAudioBuffer_promise.
  replace (audioContext
             match target with
             | original => setStep PROCESSING_ORIGINAL s
             | imitation => setStep PROCESSING_IMITATION s
             end) with (audioContext s) by (by destruct target).
  rewrite Hctx. simpl.
  destruct (reverseAudioBuffer _ blob) as [rb |]; [| by destruct target].
  destruct (audioBufferToWavBlob rb); by destruct target.
Qed.

(** [processAndReverseAudio] when no context can be had. *)
Lemma processAndReverseAudio_without_context (blob : Blob) (target : Target)
    (s : State) (e : exn) :
  audioContext s = None -> new_AudioContext = Throw e ->
  App.processAndReverseAudio new_AudioContext createObjectURL blob target s =
    setStep match target with
            | original => PROCESSING_ORIGINAL
            | imitation => PROCESSING_IMITATION
            end s.
Proof.
  intros Hnone Hnew.
  unfold App.processAndReverseAudio, reverseAudioBuffer_promise.
  replace (audioContext
             match target with
             | original => setStep PROCESSING_ORIGINAL s
             | imitation => setStep PROCESSING_IMITATION s
             end) with (audioContext s) by (by destruct target).
  rewrite Hnone, Hnew. simpl.
  destruct target; destruct s; simpl in *; by subst.
Qed.

Lemma getAudioContext_cases (g : option AudioContext.t) :
  (exists context,
     getAudioContext new_AudioContext g = (Ok context, Some context)) \/
  (exists e, g = None /\ new_AudioContext = Throw e).
Proof.
  destruct g as [c |]; simpl; [left; by exists c |].
  destruct new_AudioContext as [c | e]; [left; by exists c |].
  right. by exists e.
Qed.

Lemma playing_has_url_react (ev : Event) (s s' : State) :
  (forall blob, createObjectURL blob <> EmptyString) ->
  App.react new_AudioContext createObjectURL ev s = Some s' ->
  playing_has_url s -> playing_has_url s'.
Proof.
  intros Hurl Hreact [Horig Himit]. unfold App.react in Hreact.
  destruct (getAudioContext_cases (audioContext s))
    as [[c Hc] | (e & Hg & Hnew)].
  - destruct s as [st blob0 u1 u2 err g]; simpl in Hc.
    destruct st, ev as [granted | blob]; simpl in Hreact; try discriminate;
      injection Hreact as <-;
      try (destruct granted; split; simpl; intros; discriminate);
      try (split; simpl; intros; discriminate);
      unfold handleOriginalRecordingComplete, handleImitationRecordingComplete;
      rewrite (processAndReverseAudio_with_context _ _ _ c) by exact Hc;
      simpl;
      (destruct (reverseAudioBuffer _ blob) as [rb |];
       [destruct (audioBufferToWavBlob_returns rb) as [bytes ->] |]);
      split; simpl; intros; try discriminate; eauto.
  - destruct s as [st blob0 u1 u2 err g]; simpl in Hg; subst g.
    destruct st, ev as [granted | blob]; simpl in Hreact; try discriminate;
      injection Hreact as <-;
      try (destruct granted; split; simpl; intros; discriminate);
      try (split; simpl; intros; discriminate);
      unfold handleOriginalRecordingComplete, handleImitationRecordingComplete;
      rewrite (processAndReverseAudio_without_context _ _ _ e) by done;
      split; simpl; intros; discriminate.
Qed.

Lemma reachable_playing_has_url (s : State) :
  (forall blob, createObjectURL blob <> EmptyString) ->
  App.reachable new_AudioContext createObjectURL s -> playing_has_url s.
Proof.
  intros Hurl Hreach. induction Hreach as [| s s' ev _ IH Hreact].
  - split; simpl; intros; discriminate.
  - by apply (playing_has_url_react ev s s').
Qed.

(** X11. A player the application shows always has its recording: in
    every state the component can reach, whatever the recordings, the
    answers to the permission request and the decoder, a rendered
    [AudioPlayer] is the audio element and never the text "No audio
    available."; object URLs are taken not to be empty. *)
Theorem player_always_has_audio (s : State) (player : AudioPlayerView)
    (onClick : Handler) :
  (forall blob, createObjectURL blob <> EmptyString) ->
  App.reachable new_AudioContext createObjectURL s ->
  renderContent s = Player player onClick ->
  exists title src loop, player = AudioElement title src loop.
Proof.
  intros Hurl Hreach Hrender.
  destruct (reachable_playing_has_url s Hurl Hreach) as [Horig Himit].
  unfold renderContent in Hrender.
  destruct (step s); try discriminate; injection Hrender as <- _.
  - destruct Horig as (url & -> & Hne); [done |].
    destruct url; [done |]. simpl. eauto.
  - destruct Himit as (url & -> & Hne); [done |].
    destruct url; [done |]. simpl. eauto.
Qed.

Lemma original_kept_react (ev : Event) (s s' : State) :
  App.react new_AudioContext createObjectURL ev s = Some s' ->
  original_kept s -> original_kept s'.
Proof.
  intros Hreact Hkept. unfold App.react in Hreact.
  destruct s as [st blob0 u1 u2 err g]. unfold original_kept in *.
  simpl in Hkept.
  destruct st, ev as [granted | blob]; simpl in Hreact; try discriminate;
    injection Hreact as <-;
    try (destruct granted; simpl; intros [H | [H | [H | H]]]; discriminate);
    try (simpl; intros [H | [H | [H | H]]]; discriminate);
    try (simpl; intros _; apply Hkept; auto; fail);
    unfold handleOriginalRecordingComplete, handleImitationRecordingComplete.
  all: match goal with
       | |- context [App.processAndReverseAudio _ _ ?b ?t ?st] =>
           destruct (getAudioContext_cases (audioContext st))
             as [[c Hc] | (e & Hg & Hnew)];
           [ rewrite (processAndReverseAudio_with_context b t st c Hc);
             destruct (reverseAudioBuffer _ b) as [rb |];
             [destruct (audioBufferToWavBlob_returns rb) as [bytes ->] |]
           | rewrite (processAndReverseAudio_without_context b t st e Hg Hnew) ]
       end;
    simpl; intros Hstep;
    try (destruct Hstep as [H | [H | [H | H]]]; discriminate);
    try (split; eauto; fail);
    apply Hkept; auto.
Qed.

(** X18. The imitation comes after the original: in every state the
    component can reach in which it plays the reversed original, records
    or processes the imitation, or plays the reversed imitation, the
    recording of the original is kept and the URL of its reversal is
    set. *)
Theorem imitation_follows_original (s : State) :
  App.reachable new_AudioContext createObjectURL s ->
  step s = PLAYING_REVERSED_ORIGINAL \/
  step s = RECORDING_IMITATION \/
  step s = PROCESSING_IMITATION \/
  step s = PLAYING_REVERSED_IMITATION ->
  (exists blob, originalAudioBlob s = Some blob) /\
  (exists url, reversedOriginalAudioUrl s = Some url).
Proof.
  intros Hreach. change (original_kept s).
  induction Hreach as [| s s' ev _ IH Hreact].
  - intros [H | [H | [H | H]]]; discriminate.
  - by apply (original_kept_react ev s s').
Qed.

(** X12. Processing a recording always ends when an audio context is at
    hand (kept from before, or built now): if [reverseAudioBuffer] gives a
    buffer, the encoder returns its file, for it cannot throw, and the
    step becomes the playing step of the target with the URL of that file
    set, the error message and the other URL staying as they were; if it
    gives [null], the step becomes [IDLE] and the error message is set,
    both URLs staying as they were.  The step is never left at
    [PROCESSING_...]. *)
Theorem processing_settles (blob : Blob) (target : Target) (s : State)
    (context : AudioContext.t) :
  audioContext s = Some context \/
  (audioContext s = None /\ new_AudioContext = Ok context) ->
  let s' := App.processAndReverseAudio new_AudioContext createObjectURL
              blob target s in
  match reverseAudioBuffer (AudioContext.decodeAudioData context) blob with
  | Some reversedBuffer =>
      exists bytes : list Z,
        audioBufferToWavBlob reversedBuffer = Ok (mkBlob bytes "audio/wav") /\
        error s' = error s /\
        match target with
        | original =>
            step s' = PLAYING_REVERSED_ORIGINAL /\
            reversedOriginalAudioUrl s' =
              Some (createObjectURL (mkBlob bytes "audio/wav")) /\
            reversedImitationAudioUrl s' = reversedImitationAudioUrl s
        | imitation =>
            step s' = PLAYING_REVERSED_IMITATION /\
            reversedImitationAudioUrl s' =
              Some (createObjectURL (mkBlob bytes "audio/wav")) /\
            reversedOriginalAudioUrl s' = reversedOriginalAudioUrl s
        end
  | None =>
      step s' = IDLE /\
      error s' = Some "Failed to process audio. Please try again."%string /\
      reversedOriginalAudioUrl s' = reversedOriginalAudioUrl s /\
      reversedImitationAudioUrl s' = reversedImitationAudioUrl s
  end.
Proof.
  intros Hctx s'.
  assert (Hget : getAudioContext new_AudioContext (audioContext s) =
                 (Ok context, Some context)).
  { destruct Hctx as [-> | [-> ->]]; done. }
  unfold s'. rewrite (processAndReverseAudio_with_context _ _ _ _ Hget).
  destruct (reverseAudioBuffer _ blob) as [rb |]; [| done].
  destruct (audioBufferToWavBlob_returns rb) as [bytes Hbytes].
  exists bytes. rewrite Hbytes. by destruct target.
Qed.

(** X13. When no audio context is kept and none can be built,
    [reverseAudioBuffer] rejects, nothing catches it, and the application
    stays where the handler left it: the step is [PROCESSING_ORIGINAL] or
    [PROCESSING_IMITATION], the error message is as it was (none is set
    for this failure), only a text is rendered, and no event can change
    the state any more. *)
Theorem processing_stuck (blob : Blob) (target : Target) (s : State)
    (e : exn) :
  audioContext s = None -> new_AudioContext = Throw e ->
  let s' := App.processAndReverseAudio new_AudioContext createObjectURL
              blob target s in
  step s' = match target with
            | original => PROCESSING_ORIGINAL
            | imitation => PROCESSING_IMITATION
            end /\
  error s' = error s /\
  (exists text, renderContent s' = Message text) /\
  forall ev : Event, App.react new_AudioContext createObjectURL ev s' = None.
Proof.
  intros Hnone Hnew s'. unfold s'.
  rewrite (processAndReverseAudio_without_context _ _ _ e Hnone Hnew).
  destruct target; simpl;
    (split; [done |]; split; [done |]; split; [by eexists |]; by intros []).
Qed.

(** X14. An error message, once set, stays until [resetApp] runs: an
    event in a state with a message leads to a state with a message,
    unless the event is the click on a button whose handler is
    [resetApp].  No other handler clears it, a successful processing
    included. *)
Theorem error_kept_until_reset (ev : Event) (s s' : State) :
  App.react new_AudioContext createObjectURL ev s = Some s' ->
  error s <> None ->
  error s' <> None \/
  ((renderContent s = AccessDenied ResetApp \/
    exists player, renderContent s = Player player ResetApp) /\
   s' = resetApp s).
Proof.
  intros Hreact Herr. unfold App.react in Hreact.
  destruct s as [st blob0 u1 u2 err g]. simpl in Herr.
  destruct st, ev as [granted | blob]; simpl in Hreact; try discriminate;
    injection Hreact as <-;
    try (left; by destruct granted);
    try (right; split; [by left | done]);
    try (right; split; [right; by eexists | done]);
    left;
    unfold handleOriginalRecordingComplete, handleImitationRecordingComplete.
  all: match goal with
       | |- context [App.processAndReverseAudio _ _ ?b ?t ?st] =>
           destruct (getAudioContext_cases (audioContext st))
             as [[c Hc] | (e & Hg & Hnew)];
           [ rewrite (processAndReverseAudio_with_context b t st c Hc);
             destruct (reverseAudioBuffer _ b) as [rb |]; [| done];
             by destruct (audioBufferToWavBlob rb)
           | by rewrite (processAndReverseAudio_without_context b t st e Hg Hnew) ]
       end.
Qed.

(** X15. The message of a failure is shown beside a later success: start,
    hand over a recording the reverser fails on, start again and hand
    over one it reverses; the application then plays the reversed
    recording, with the URL of its file, and still shows "Failed to
    process audio. Please try again." above it. *)
Theorem error_shown_beside_result (blob1 blob2 : Blob)
    (context : AudioContext.t) (reversedBuffer : AudioBuffer.t) :
  new_AudioContext = Ok context ->
  reverseAudioBuffer (AudioContext.decodeAudioData context) blob1 = None ->
  reverseAudioBuffer (AudioContext.decodeAudioData context) blob2 =
    Some reversedBuffer ->
  let s := App.react_all new_AudioContext createObjectURL
             [Click true; RecorderStop blob1; Click true; RecorderStop blob2]
             initial in
  step s = PLAYING_REVERSED_ORIGINAL /\
  errorBanner s = Some "Failed to process audio. Please try again."%string /\
  exists bytes : list Z,
    audioBufferToWavBlob reversedBuffer = Ok (mkBlob bytes "audio/wav") /\
    reversedOriginalAudioUrl s =
      Some (createObjectURL (mkBlob bytes "audio/wav")).
Proof.
  intros Hnew Hfail Hok s.
  destruct (audioBufferToWavBlob_returns reversedBuffer) as [bytes Hbytes].
  assert (Hs : s = mk PLAYING_REVERSED_ORIGINAL (Some blob2)
                     (Some (createObjectURL (mkBlob bytes "audio/wav"))) None
                     (Some "Failed to process audio. Please try again."%string)
                     (Some context)).
  { unfold s. simpl. unfold handleOriginalRecordingComplete.
    rewrite (processAndReverseAudio_with_context _ _ _ context)
      by (simpl; by rewrite Hnew).
    rewrite Hfail. simpl. unfold handleOriginalRecordingComplete.
    rewrite (processAndReverseAudio_with_context _ _ _ context) by done.
    by rewrite Hok, Hbytes. }
  rewrite Hs. simpl. split; [done |]. split; [done |]. by exists bytes.
Qed.

End AppProps.

Section AppWitnesses.
Import App.

Lemma player_always_has_audio_witness :
  exists title src loop,
    AudioPlayer (Some (sample_createObjectURL (mkBlob [] "audio/wav")))
      "Step 2: Listen to it backward" false
    = AudioElement title src loop.
Proof.
  apply (player_always_has_audio (Ok sample_context) sample_createObjectURL
           (App.react_all (Ok sample_context) sample_createObjectURL
              [Click true; RecorderStop (mkBlob [1] "audio/webm")] initial)
           _ SetStepRecordingImitation).
  - intros blob. discriminate.
  - eapply reachable_react with (ev := RecorderStop (mkBlob [1] "audio/webm")).
    + eapply reachable_react with (ev := Click true).
      * apply reachable_initial.
      * reflexivity.
    + reflexivity.
  - reflexivity.
Defined.

Lemma imitation_follows_original_witness :
  let s := App.react_all (Ok sample_context) sample_createObjectURL
             [Click true; RecorderStop (mkBlob [1] "audio/webm"); Click true]
             initial in
  step s = RECORDING_IMITATION /\
  (exists blob, originalAudioBlob s = Some blob) /\
  (exists url, reversedOriginalAudioUrl s = Some url).
Proof.
  split; [reflexivity |].
  apply (imitation_follows_original (Ok sample_context) sample_createObjectURL).
  - eapply reachable_react with (ev := Click true).
    + eapply reachable_react
        with (ev := RecorderStop (mkBlob [1] "audio/webm")).
      * eapply reachable_react with (ev := Click true).
        -- apply reachable_initial.
        -- reflexivity.
      * reflexivity.
    + reflexivity.
  - right. left. reflexivity.
Defined.

Lemma processing_settles_witness :
  let s' := App.processAndReverseAudio (Ok sample_context)
              sample_createObjectURL (mkBlob [] "audio/webm") original
              (setStep RECORDING_ORIGINAL initial) in
  step s' = IDLE /\
  error s' = Some "Failed to process audio. Please try again."%string.
Proof.
  pose proof (processing_settles (Ok sample_context) sample_createObjectURL
                (mkBlob [] "audio/webm") original
                (setStep RECORDING_ORIGINAL initial) sample_context
                (or_intror (conj eq_refl eq_refl))) as H.
  simpl in H. destruct H as (Hstep & Herr & _). by split.
Defined.

Lemma processing_stuck_witness :
  let s' := App.processAndReverseAudio (Throw TypeError)
              sample_createObjectURL (mkBlob [1] "audio/webm") original
              (setStep RECORDING_ORIGINAL initial) in
  step s' = PROCESSING_ORIGINAL /\
  error s' = None /\
  App.react (Throw TypeError) sample_createObjectURL (Click true) s' = None.
Proof.
  destruct (processing_stuck (Throw TypeError) sample_createObjectURL
              (mkBlob [1] "audio/webm") original
              (setStep RECORDING_ORIGINAL initial) TypeError eq_refl eq_refl)
    as (Hstep & Herr & _ & Hstuck).
  split; [exact Hstep |]. split; [exact Herr |]. exact (Hstuck (Click true)).
Defined.

Lemma error_kept_until_reset_witness :
  let s := mk PLAYING_REVERSED_ORIGINAL None (Some "blob:recording"%string)
             None (Some "Failed to process audio. Please try again."%string)
             (Some sample_context) in
  error (setStep RECORDING_IMITATION s) <> None \/
  ((renderContent s = AccessDenied ResetApp \/
    exists player, renderContent s = Player player ResetApp) /\
   setStep RECORDING_IMITATION s = resetApp s).
Proof.
  apply (error_kept_until_reset (Ok sample_context) sample_createObjectURL
           (Click true)); [reflexivity | discriminate].
Defined.

Lemma error_shown_beside_result_witness :
  let s := App.react_all (Ok sample_context) sample_createObjectURL
             [Click true; RecorderStop (mkBlob [] "audio/webm");
              Click true; RecorderStop (mkBlob [1] "audio/webm")]
             initial in
  step s = PLAYING_REVERSED_ORIGINAL /\
  errorBanner s = Some "Failed to process audio. Please try again."%string.
Proof.
  destruct (error_shown_beside_result (Ok sample_context)
              sample_createObjectURL
              (mkBlob [] "audio/webm") (mkBlob [1] "audio/webm")
              sample_context
              (AudioBuffer.mk 44100 2
                 [ [of_Z (-1); of_Z 1]; [of_Z 0; dyadic 1 (-1)] ])
              eq_refl eq_refl eq_refl) as (Hstep & Hbanner & _).
  by split.
Defined.

End AppWitnesses.

(** ** The timer of the recorder *)

Section RecorderProps.
Import Recorder.
Local Open Scope nat_scope.

(** [startTimer] has no dependencies: it stays the one of the first
    render. *)
Lemma startTimer_rerender (statuses : list RecorderStatus) :
  forall hooks : Hooks,
    startTimer (rerender statuses hooks) = startTimer hooks.
Proof.
  induction statuses as [|status statuses IH]; intros hooks; [done |].
  simpl. rewrite IH. unfold render. simpl.
  by destruct (startTimer hooks) as [f []].
Qed.

(** The [stopRecording] of the first render does nothing. *)
Lemma stopRecording_idle (s : Store) : stopRecording idle s = s.
Proof. unfold stopRecording. by destruct (mediaRecorder s). Qed.

Lemma tick_mount (statuses : list RecorderStatus) (s : Store) :
  tick (rerender statuses mount) s =
    setRecordingTime (Nat.min (recordingTime s + 1) MAX_DURATION) s.
Proof.
  unfold tick. rewrite startTimer_rerender. simpl.
  unfold timer_callback. rewrite stopRecording_idle.
  unfold MAX_DURATION.
  destruct (Nat.leb_spec (30 - 1) (recordingTime s)); f_equal; lia.
Qed.

(** X16. The timer never stops the recording.  [startTimer] is memoised
    without dependencies, so that at every render it is the one of the
    first render, and the [stopRecording] its callback calls is the one
    of the first render too, whose status is ['idle'] and which therefore
    does nothing.  After any number [k] of ticks, whatever renders have
    taken place, the status, the recorder and its state and the timer are
    as they were, and the time shown is [min(t + k, 30)] for a time [t] of
    at most 30: at 30 seconds the display stops and the recording goes
    on. *)
Theorem timer_never_stops_recording (statuses : list RecorderStatus)
    (k : nat) (s : Store) :
  recordingTime s <= MAX_DURATION ->
  let s' := Nat.iter k (tick (rerender statuses mount)) s in
  status s' = status s /\
  mediaRecorder s' = mediaRecorder s /\
  timerInterval s' = timerInterval s /\
  liveIntervals s' = liveIntervals s /\
  recordingTime s' = Nat.min (recordingTime s + k) MAX_DURATION.
Proof.
  intros Ht. induction k as [|k IH]; simpl.
  - repeat split. unfold MAX_DURATION in *. lia.
  - rewrite tick_mount. simpl in IH.
    destruct IH as (Hs & Hm & Hi & Hl & Hr). simpl.
    repeat split; try done. rewrite Hr. unfold MAX_DURATION. lia.
Qed.

Lemma timer_never_stops_recording_witness :
  let s := mk recording 0 (Some rs_recording) (Some 1) [1] in
  let s' := Nat.iter 45 (tick (rerender [recording; paused; recording] mount))
              s in
  status s' = recording /\
  mediaRecorder s' = Some rs_recording /\
  timerInterval s' = Some 1 /\
  liveIntervals s' = [1] /\
  recordingTime s' = 30.
Proof.
  apply (timer_never_stops_recording [recording; paused; recording] 45
           (mk recording 0 (Some rs_recording) (Some 1) [1])).
  unfold MAX_DURATION. simpl. lia.
Defined.

End RecorderProps.
